(** * A shallow embedding of [affine_cipher_decrypter.py]

    The class [AffineCipherDecrypter] is embedded method by method:
    [extended_gcd], [modular_inverse], [decrypt], [calculate_score] and
    [find_possible_plaintext].  The instance attributes [alphabet_size],
    [word_bank] and [ciphertext] become explicit arguments.

    - Python [int] is [Z]; [%] and [//] are floor operations, as [Z.modulo]
      and [Z.div] are.
    - Python [str] is a list of Unicode code points ([list Z]).
    - A computation that can raise returns a [result]; the exceptions are the
      ones the methods can meet.
    - The [dict] of [find_possible_plaintext] is an association list in
      insertion order; the word bank, a Python [set], is a [gset]. *)

From Stdlib Require Import ZArith Znumtheory Lia List Bool String Ascii.
From Stdlib Require Import DecimalString.
From Equations Require Import Equations.
From stdpp Require Import gmap list.
Import ListNotations.
Local Open Scope Z_scope.

(** ** Python values and exceptions *)

Abbreviation str := (list Z).

Inductive exn : Set :=
| TypeError_ord        (* ord() of a string that is not one character *)
| TypeError_NoneType   (* the operator * on an int and None *)
| ValueError_chr       (* chr() arg not in range(0x110000) *)
| ValueError_max       (* max() arg is an empty sequence *)
| ZeroDivisionError.   (* integer modulo by zero *)

Inductive result (A : Type) : Type :=
| Ok (a : A)
| Raise (e : exn).
Arguments Ok {A} a.
Arguments Raise {A} e.

Definition bind {A B} (r : result A) (k : A -> result B) : result B :=
  match r with
  | Ok a => k a
  | Raise e => Raise e
  end.

Notation "'let*' x ':=' r 'in' k" := (bind r (fun x => k))
  (at level 10, x name, r at level 100, k at level 200).

(** [for x in l: body], the loop state threaded through the iterations; an
    exception leaves the loop. *)
Fixpoint for_each {A S} (l : list A) (body : A -> S -> result S) (s : S)
  : result S :=
  match l with
  | [] => Ok s
  | x :: l' => let* s' := body x s in for_each l' body s'
  end.

(** [range(lo, hi)]. *)
Definition range (lo hi : Z) : list Z :=
  map (fun i => lo + Z.of_nat i) (seq 0 (Z.to_nat (hi - lo))).

(** [x % m] on integers. *)
Definition py_mod (x m : Z) : result Z :=
  if m =? 0 then Raise ZeroDivisionError else Ok (x mod m).

(** [n * v] where [v] is an [int] or [None]. *)
Definition py_mul (n : Z) (v : option Z) : result Z :=
  match v with
  | Some i => Ok (n * i)
  | None => Raise TypeError_NoneType
  end.

(** [ord(s)]: defined on strings of length one. *)
Definition ord (s : str) : result Z :=
  match s with
  | [c] => Ok c
  | _ => Raise TypeError_ord
  end.

(** [chr(i)]: defined on [range(0x110000)]. *)
Definition chr (i : Z) : result str :=
  if (0 <=? i) && (i <? 1114112) then Ok [i] else Raise ValueError_chr.

Definition ord_a : Z := 97.

(** [max(values)]. *)
Definition py_max (values : list Z) : result Z :=
  match values with
  | [] => Raise ValueError_max
  | v :: vs => Ok (fold_left Z.max vs v)
  end.

(** A string literal as a Python string. *)
Definition py (s : string) : str :=
  map (fun c => Z.of_N (N_of_ascii c)) (list_ascii_of_string s).

(** ** Character classes

    [str.isalpha], [str.isupper], [str.lower], [str.upper] and the regular
    expression class [\w] read the Unicode character database, which is not
    part of the program.  On ASCII they are written out; beyond ASCII they
    are the fields of a parameter [U], about which nothing is assumed. *)

Record UnicodeData := {
  ucd_isalpha : Z -> bool;
  ucd_isupper : Z -> bool;
  ucd_islower : Z -> bool;
  ucd_lower : Z -> str;
  ucd_upper : Z -> str;
  ucd_isword : Z -> bool;
  ucd_str_lower : str -> str
}.

Definition is_ascii (c : Z) : bool := (0 <=? c) && (c <? 128).
Definition in_AZ (c : Z) : bool := (65 <=? c) && (c <=? 90).
Definition in_az (c : Z) : bool := (97 <=? c) && (c <=? 122).
Definition in_09 (c : Z) : bool := (48 <=? c) && (c <=? 57).

Section Characters.
Variable U : UnicodeData.

Definition isalpha (c : Z) : bool :=
  if is_ascii c then in_AZ c || in_az c else ucd_isalpha U c.

Definition isupper (c : Z) : bool :=
  if is_ascii c then in_AZ c else ucd_isupper U c.

Definition islower (c : Z) : bool :=
  if is_ascii c then in_az c else ucd_islower U c.

(** [c.lower()] and [c.upper()] of a one-character string. *)
Definition lower (c : Z) : str :=
  if is_ascii c then (if in_AZ c then [c + 32] else [c]) else ucd_lower U c.

Definition upper (c : Z) : str :=
  if is_ascii c then (if in_az c then [c - 32] else [c]) else ucd_upper U c.

(** [s.upper()] of the one-character string [chr] returned. *)
Definition str_upper (s : str) : str := flat_map upper s.

(** [s.lower()] of a whole string: character by character on ASCII text. *)
Definition str_lower (s : str) : str :=
  if forallb is_ascii s then flat_map lower s else ucd_str_lower U s.

(** The class [\w] of a [str] pattern. *)
Definition isword (c : Z) : bool :=
  if is_ascii c then in_AZ c || in_az c || in_09 c || (c =? 95)
  else ucd_isword U c.
End Characters.

(** A database in which nothing beyond ASCII is a letter or has case. *)
Definition ascii_only : UnicodeData := {|
  ucd_isalpha := fun _ => false;
  ucd_isupper := fun _ => false;
  ucd_islower := fun _ => false;
  ucd_lower := fun c => [c];
  ucd_upper := fun c => [c];
  ucd_isword := fun _ => false;
  ucd_str_lower := fun s => s
|}.

(** ** [extended_gcd] and [modular_inverse] *)

(** The recursion on [(b % a, a)] is well founded on [|a|]: the remainder is
    smaller than [a] in absolute value.  The interpreter's limit on the depth
    of the recursion is not part of the model. *)
Equations? extended_gcd (a b : Z) : Z * Z * Z by wf (Z.abs_nat a) lt :=
  extended_gcd a b with Z.eq_dec a 0 => {
    | left _ := (b, 0, 1)
    | right _ :=
        let '(gcd, x1, y1) := extended_gcd (b mod a) a in
        let x := y1 - (b / a) * x1 in
        let y := x1 in
        (gcd, x, y) }.
Proof.
  pose proof (Z.mod_bound_or b a ltac:(assumption)). lia.
Qed.

(** [None] is [Ok None]; [x % m] raises when [m] is 0. *)
Definition modular_inverse (a m : Z) : result (option Z) :=
  if negb (fst (fst (extended_gcd a m)) =? 1) then Ok None
  else
    let '(_, x, _) := extended_gcd a m in
    let* r := py_mod x m in Ok (Some r).

(** ** [decrypt] *)

Section Decrypt.
Variable U : UnicodeData.
Variable alphabet_size : Z.

(** The body of the loop for one character: what is appended to
    [plaintext]. *)
Definition decrypt_char (shift multiplier char : Z) : result str :=
  if isalpha U char then
    let* o := ord (lower U char) in
    let* inverse := modular_inverse multiplier alphabet_size in
    let* p := py_mul (o - ord_a - shift) inverse in
    let* r := py_mod p alphabet_size in
    let* decrypted_char := chr (r + ord_a) in
    Ok (if isupper U char then str_upper U decrypted_char
        else decrypted_char)
  else Ok [char].

Fixpoint decrypt_loop (ciphertext : str) (shift multiplier : Z)
    (plaintext : str) : result str :=
  match ciphertext with
  | [] => Ok plaintext
  | char :: rest =>
      let* s := decrypt_char shift multiplier char in
      decrypt_loop rest shift multiplier (plaintext ++ s)
  end.

Definition decrypt (ciphertext : str) (shift multiplier : Z) : result str :=
  decrypt_loop ciphertext shift multiplier [].
End Decrypt.

(** ** [calculate_score]

    [re.findall(r'\b[a-z]+\b', text)] is written out for this pattern: the
    assertion [\b], the greedy repetition [[a-z]+] with its backtracking, and
    the left-to-right scan of [findall], which resumes at the end of each
    match. *)

Section Score.
Variable U : UnicodeData.

Definition isword_opt (o : option Z) : bool :=
  match o with
  | Some c => isword U c
  | None => false
  end.

(** [\b] between the character [prev] (absent at the start of the text) and
    the text [rest] that follows. *)
Definition word_boundary (prev : option Z) (rest : str) : bool :=
  xorb (isword_opt prev) (isword_opt (head rest)).

(** [[a-z]*\b] after a first letter [last]: the longest repetition is tried
    first, a shorter one when the rest of the pattern fails. *)
Fixpoint match_more (last : Z) (rest : str) : option (str * str) :=
  match rest with
  | c :: rest' =>
      if in_az c then
        match match_more c rest' with
        | Some (w, r) => Some (c :: w, r)
        | None =>
            if word_boundary (Some last) rest then Some ([], rest) else None
        end
      else if word_boundary (Some last) rest then Some ([], rest) else None
  | [] => if word_boundary (Some last) [] then Some ([], []) else None
  end.

(** The whole pattern at one position: the word matched and what follows. *)
Definition match_word (prev : option Z) (rest : str) : option (str * str) :=
  if word_boundary prev rest then
    match rest with
    | c :: rest' =>
        if in_az c then
          match match_more c rest' with
          | Some (w, r) => Some (c :: w, r)
          | None => None
          end
        else None
    | [] => None
    end
  else None.

(** The scan: [skip] counts the characters of the last match still to step
    over. *)
Fixpoint findall_from (prev : option Z) (rest : str) (skip : nat)
  : list str :=
  match rest with
  | [] => []
  | c :: rest' =>
      match skip with
      | S n => findall_from (Some c) rest' n
      | O =>
          match match_word prev rest with
          | Some (w, _) => w :: findall_from (Some c) rest' (length w - 1)%nat
          | None => findall_from (Some c) rest' 0%nat
          end
      end
  end.

Definition findall (text : str) : list str := findall_from None text 0%nat.

(** [sum(...)] of integers. *)
Definition py_sum (l : list Z) : Z := fold_left Z.add l 0.

Definition calculate_score (word_bank : gset str) (plaintext : str) : Z :=
  let words := findall (str_lower U plaintext) in
  let valid_word_count :=
    py_sum (map (fun word => Z.b2z (bool_decide (word ∈ word_bank))) words) in
  valid_word_count.
End Score.

(** ** [find_possible_plaintext] *)

(** [d[k] = v] on a dictionary in insertion order: a key already there keeps
    its place. *)
Fixpoint dict_set (d : list (str * Z)) (k : str) (v : Z) : list (str * Z) :=
  match d with
  | [] => [(k, v)]
  | (k', v') :: d' =>
      if decide (k' = k) then (k', v) :: d' else (k', v') :: dict_set d' k v
  end.

Definition dict_values (d : list (str * Z)) : list Z := map snd d.

Section Search.
Variable U : UnicodeData.
Variable word_bank : gset str.
Variable alphabet_size : Z.

(** The body of the inner loop. *)
Definition try_key (ciphertext : str) (shift multiplier : Z)
    (possible_plaintext : list (str * Z)) : result (list (str * Z)) :=
  let* inverse := modular_inverse multiplier alphabet_size in
  match inverse with
  | None => Ok possible_plaintext
  | Some _ =>
      let* plaintext := decrypt U alphabet_size ciphertext shift multiplier in
      let score := calculate_score U word_bank plaintext in
      Ok (dict_set possible_plaintext plaintext score)
  end.

Definition find_possible_plaintext (ciphertext : str) : result (list str) :=
  let* possible_plaintext :=
    for_each (range 0 alphabet_size) (fun shift d =>
      for_each (range 1 alphabet_size) (try_key ciphertext shift) d) [] in
  let* max_score := py_max (dict_values possible_plaintext) in
  let best_plaintext :=
    fold_left (fun best kv =>
                 if snd kv =? max_score then best ++ [fst kv] else best)
              possible_plaintext [] in
  Ok best_plaintext.
End Search.

(** ** The forward transform *)

Section Encrypt.
Variable U : UnicodeData.
Variable alphabet_size : Z.

(** Modelled from the spec: the repository has no encryption function.  The
    forward affine transform [cipher_index = (plain_index*k + shift) mod m]
    on each alphabetic character, with the conventions of [decrypt] for the
    alphabet position, the case and the other characters. *)
Definition encrypt_char (shift multiplier char : Z) : result str :=
  if isalpha U char then
    let* o := ord (lower U char) in
    let* r := py_mod ((o - ord_a) * multiplier + shift) alphabet_size in
    let* encrypted_char := chr (r + ord_a) in
    Ok (if isupper U char then str_upper U encrypted_char
        else encrypted_char)
  else Ok [char].

Fixpoint encrypt (plaintext : str) (shift multiplier : Z) : result str :=
  match plaintext with
  | [] => Ok []
  | char :: rest =>
      let* s := encrypt_char shift multiplier char in
      let* t := encrypt rest shift multiplier in
      Ok (s ++ t)
  end.
End Encrypt.

(** ** Keys, ASCII text and the plaintext letter *)

(** A key of the data model: a shift in [[0, m)] and a multiplier in [[1, m)]
    coprime with [m]. *)
Definition valid_key (m shift multiplier : Z) : Prop :=
  0 <= shift < m /\ 1 <= multiplier < m /\ Z.gcd multiplier m = 1.

Definition ascii_text (s : str) : Prop := forallb is_ascii s = true.

Definition is_letter (c : Z) : bool := in_AZ c || in_az c.

(** The position in the alphabet of an ASCII letter, either case:
    [ord(c.lower()) - ord('a')]. *)
Definition letter_index (c : Z) : Z :=
  (if in_AZ c then c + 32 else c) - ord_a.

(** What [decrypt] writes for the ASCII character [c] when the inverse of the
    multiplier is [inverse] and the alphabet has at most 26 letters. *)
Definition plain_char (m shift inverse c : Z) : Z :=
  if is_letter c then
    let d := ((letter_index c - shift) * inverse) mod m + ord_a in
    if in_AZ c then d - 32 else d
  else c.

(** ASCII text whose letters are among the first [m] of the alphabet. *)
Definition in_alphabet (m : Z) (s : str) : Prop :=
  forallb
    (fun c => is_ascii c && (negb (is_letter c) || (letter_index c <? m)))
    s = true.

(** What the forward transform writes for the ASCII character [c]. *)
Definition cipher_char (m shift multiplier c : Z) : Z :=
  if is_letter c then
    let d := (letter_index c * multiplier + shift) mod m + ord_a in
    if in_AZ c then d - 32 else d
  else c.

(** ** Runs of characters *)

Definition emit (cur : str) : list str :=
  match cur with
  | [] => []
  | _ => [cur]
  end.

(** The maximal runs of characters of class [P] in [s], in order; [cur] is
    the run being read. *)
Fixpoint runs (P : Z -> bool) (cur : str) (s : str) : list str :=
  match s with
  | [] => emit cur
  | c :: s' =>
      if P c then runs P (cur ++ [c]) s' else emit cur ++ runs P [] s'
  end.

(** The maximal runs of word characters (letters, digits, underscore). *)
Definition word_runs (U : UnicodeData) (s : str) : list str :=
  runs (isword U) [] s.

(** The maximal runs of alphabetic characters. *)
Definition alpha_runs (U : UnicodeData) (s : str) : list str :=
  runs (isalpha U) [] s.

(** The score in the words of the specification: the number of maximal runs
    of alphabetic characters that, lowercased, are in the word bank. *)
Definition claimed_score (U : UnicodeData) (word_bank : gset str)
    (plaintext : str) : Z :=
  Z.of_nat (length (List.filter
                      (fun r => bool_decide (str_lower U r ∈ word_bank))
                      (alpha_runs U plaintext))).

(** The words that count: the runs of word characters of the lowercased
    text that are made of the letters a..z only. *)
Definition letter_words (U : UnicodeData) (plaintext : str) : list str :=
  List.filter (forallb in_az) (word_runs U (str_lower U plaintext)).

(** ** The key space and the candidates *)

Definition has_inverse (k m : Z) : bool :=
  match modular_inverse k m with
  | Ok (Some _) => true
  | _ => false
  end.

(** The keys in the order of the two loops: shift-major, multiplier-minor,
    the multipliers without an inverse left out. *)
Definition key_space (m : Z) : list (Z * Z) :=
  flat_map (fun shift =>
              map (pair shift)
                  (List.filter (fun k => has_inverse k m) (range 1 m)))
           (range 0 m).

Fixpoint map_result {A B} (f : A -> result B) (l : list A)
  : result (list B) :=
  match l with
  | [] => Ok []
  | x :: l' =>
      let* y := f x in
      let* ys := map_result f l' in
      Ok (y :: ys)
  end.

(** The candidate of a key: its plaintext and the score of the plaintext. *)
Definition candidate (U : UnicodeData) (word_bank : gset str) (m : Z)
    (ciphertext : str) (key : Z * Z) : result (str * Z) :=
  let* plaintext := decrypt U m ciphertext (fst key) (snd key) in
  Ok (plaintext, calculate_score U word_bank plaintext).

Definition candidates (U : UnicodeData) (word_bank : gset str) (m : Z)
    (ciphertext : str) : result (list (str * Z)) :=
  map_result (candidate U word_bank m ciphertext) (key_space m).

(** The elements of a list, each kept where it first occurs. *)
Definition keep (kept : list str) (x : str) : list str :=
  if bool_decide (x ∈ kept) then kept else kept ++ [x].

Definition first_occurrences (l : list str) : list str :=
  fold_left keep l [].

Definition maximal (max_score : Z) (cands : list (str * Z)) : list str :=
  map fst (List.filter (fun kv => snd kv =? max_score) cands).

(** The result in the words of the specification: the plaintext of every
    candidate of maximal score, one per key, in the order of the keys. *)
Definition all_maximal (U : UnicodeData) (word_bank : gset str) (m : Z)
    (ciphertext : str) : result (list str) :=
  let* cands := candidates U word_bank m ciphertext in
  let* max_score := py_max (map snd cands) in
  Ok (maximal max_score cands).

(** The same, each plaintext once. *)
Definition distinct_maximal (U : UnicodeData) (word_bank : gset str) (m : Z)
    (ciphertext : str) : result (list str) :=
  let* cands := candidates U word_bank m ciphertext in
  let* max_score := py_max (map snd cands) in
  Ok (first_occurrences (maximal max_score cands)).

(** ** The dictionary of [find_possible_plaintext] *)

(** [possible_plaintext[plaintext] = score] for a candidate. *)
Definition insert_candidate (d : list (str * Z)) (cand : str * Z)
  : list (str * Z) :=
  dict_set d (fst cand) (snd cand).

(** One turn of the inner loop for a key that has an inverse. *)
Definition search_step (U : UnicodeData) (word_bank : gset str) (m : Z)
    (ciphertext : str) (key : Z * Z) (d : list (str * Z))
  : result (list (str * Z)) :=
  let* cand := candidate U word_bank m ciphertext key in
  Ok (insert_candidate d cand).

(** A list of plaintexts with the score [f] of each. *)
Definition scored (f : str -> Z) (l : list str) : list (str * Z) :=
  map (fun p => (p, f p)) l.

(** ** [load_word_bank]

    The file object is the list of the lines it yields.  [str.strip] removes
    the white space at both ends; beyond ASCII what is white space is the
    parameter [space]. *)

Definition isspace (space : Z -> bool) (c : Z) : bool :=
  if is_ascii c
  then ((9 <=? c) && (c <=? 13)) || ((28 <=? c) && (c <=? 32))
  else space c.

Fixpoint lstrip (space : Z -> bool) (s : str) : str :=
  match s with
  | [] => []
  | c :: s' => if isspace space c then lstrip space s' else s
  end.

Definition rstrip (space : Z -> bool) (s : str) : str :=
  rev (lstrip space (rev s)).

Definition strip (space : Z -> bool) (s : str) : str :=
  rstrip space (lstrip space s).

Definition load_word_bank (U : UnicodeData) (space : Z -> bool)
    (file : list str) : gset str :=
  fold_left (fun word_set line =>
               let word := str_lower U (strip space line) in
               {[ word ]} ∪ word_set)
            file ∅.

(** ** [run]

    What [run] prints, one string per call of [print], and how it ends. *)

Inductive run_error : Set :=
| Propagated (e : exn)   (* raised by find_possible_plaintext *)
| IndexError.            (* list index out of range *)

(** [str(i)] for a list index. *)
Definition decimal (i : nat) : str :=
  py (NilEmpty.string_of_uint (Nat.to_uint i)).

(** The loop over [range(possible_plaintext_length)]; [p.strip()] builds a
    string that is dropped. *)
Fixpoint print_each (possible_plaintext : list str) (indices : list nat)
    (out : list str) : list str * option run_error :=
  match indices with
  | [] => (out, None)
  | i :: rest =>
      let out := out ++ [py "Possible plaintext " ++ decimal i ++ py ":"] in
      match nth_error possible_plaintext i with
      | None => (out, Some IndexError)
      | Some p => print_each possible_plaintext rest (out ++ [p])
      end
  end.

Definition run (U : UnicodeData) (word_bank : gset str) (alphabet_size : Z)
    (ciphertext : str) : list str * option run_error :=
  match find_possible_plaintext U word_bank alphabet_size ciphertext with
  | Raise e => ([], Some (Propagated e))
  | Ok possible_plaintext =>
      let possible_plaintext_length := length possible_plaintext in
      if (1 <? possible_plaintext_length)%nat then
        print_each possible_plaintext (seq 0 possible_plaintext_length)
                   [py "There are several possible plaintext."]
      else
        let out := [py "Possible plaintext:"] in
        match nth_error possible_plaintext 0 with
        | None => (out, Some IndexError)
        | Some p => (out ++ [p], None)
        end
  end.

(** What [run] prints for a list of plaintexts: the plaintexts as they are,
    each under its heading. *)
Definition report (best : list str) : list str :=
  match best with
  | [p] => [py "Possible plaintext:"; p]
  | _ =>
      py "There are several possible plaintext." ::
      concat (map (fun ip => [py "Possible plaintext " ++ decimal (fst ip)
                                ++ py ":"; snd ip])
                  (combine (seq 0 (length best)) best))
  end.

(** [c.lower()] on an ASCII character, as a character. *)
Definition ascii_lower (c : Z) : Z := if in_AZ c then c + 32 else c.

(** A string that does not begin with white space. *)
Definition starts_clean (space : Z -> bool) (s : str) : Prop :=
  match s with
  | [] => True
  | c :: _ => isspace space c = false
  end.

(** ** The order of events in [find_possible_plaintext]

    The same method with a record of what it does, in order: a turn of the
    loop over the shifts, a turn of the loop over the multipliers, the call
    of [max].  An exception leaves the record as it is when it is raised. *)

Inductive event : Set :=
| ShiftTurn (shift : Z)
| KeyTurn (shift multiplier : Z)
| MaxCall.

Definition traced_bind {A B} (t : list event * result A)
    (k : A -> list event * result B) : list event * result B :=
  match t with
  | (tr, Ok a) => let '(tr', r) := k a in (tr ++ tr', r)
  | (tr, Raise e) => (tr, Raise e)
  end.

Fixpoint for_each_traced {A S} (l : list A)
    (body : A -> S -> list event * result S) (s : S)
  : list event * result S :=
  match l with
  | [] => ([], Ok s)
  | x :: l' => traced_bind (body x s) (for_each_traced l' body)
  end.

Definition find_possible_plaintext_traced (U : UnicodeData)
    (word_bank : gset str) (alphabet_size : Z) (ciphertext : str)
  : list event * result (list str) :=
  traced_bind
    (for_each_traced (range 0 alphabet_size)
       (fun shift d =>
          traced_bind ([ShiftTurn shift], Ok d)
            (for_each_traced (range 1 alphabet_size)
               (fun multiplier d =>
                  ([KeyTurn shift multiplier],
                   try_key U word_bank alphabet_size ciphertext
                           shift multiplier d))))
       [])
    (fun possible_plaintext =>
       traced_bind ([MaxCall], py_max (dict_values possible_plaintext))
         (fun max_score =>
            ([], Ok (fold_left
                       (fun best kv =>
                          if snd kv =? max_score then best ++ [fst kv]
                          else best)
                       possible_plaintext [])))).

(** ** Letters that tell the multipliers apart *)




(** ** [extended_gcd] and [modular_inverse] are correct *)

Lemma extended_gcd_step a b :
  extended_gcd a b =
    if a =? 0 then (b, 0, 1)
    else
      let '(gcd, x1, y1) := extended_gcd (b mod a) a in
      (gcd, y1 - (b / a) * x1, x1).
Proof.
  funelim (extended_gcd a b).
  - subst. reflexivity.
  - destruct (Z.eqb_spec a 0); [contradiction | reflexivity].
Qed.

Lemma extended_gcd_bezout a b :
  let '(g, x, y) := extended_gcd a b in a * x + b * y = g.
Proof.
  funelim (extended_gcd a b).
  - subst. lia.
  - destruct (extended_gcd (b mod a) a) as [[g x1] y1]. cbn zeta.
    pose proof (Z.div_mod b a ltac:(assumption)). nia.
Qed.

Lemma extended_gcd_gcd a b :
  0 <= a -> 0 <= b -> fst (fst (extended_gcd a b)) = Z.gcd a b.
Proof.
  funelim (extended_gcd a b); intros Ha Hb.
  - subst. cbn [fst]. rewrite Z.gcd_0_l. lia.
  - pose proof (Z.mod_pos_bound b a ltac:(lia)).
    rewrite <- Z.gcd_mod by assumption.
    destruct (extended_gcd (b mod a) a) as [[g x1] y1]. cbn in *.
    match goal with IH : _ -> _ -> g = _ |- _ => apply IH; lia end.
Qed.

Lemma modular_inverse_coprime a m :
  0 <= a -> 0 < m -> Z.gcd a m = 1 ->
  exists x, modular_inverse a m = Ok (Some x) /\
            0 <= x < m /\ (a * x) mod m = 1 mod m.
Proof.
  intros Ha Hm Hg. unfold modular_inverse.
  pose proof (extended_gcd_gcd a m Ha ltac:(lia)) as Hfst.
  pose proof (extended_gcd_bezout a m) as Hbez.
  destruct (extended_gcd a m) as [[g x] y]. cbn in Hfst. subst g.
  rewrite Hg. cbn [negb Z.eqb Pos.eqb].
  unfold py_mod. destruct (Z.eqb_spec m 0) as [?|_]; [lia|]. cbn.
  exists (x mod m). split; [reflexivity|]. split.
  - apply Z.mod_pos_bound. lia.
  - rewrite Z.mul_mod_idemp_r by lia.
    replace (a * x) with (1 + (- y) * m) by lia.
    rewrite Z.mod_add by lia. reflexivity.
Qed.

Lemma modular_inverse_not_coprime a m :
  0 <= a -> 0 <= m -> Z.gcd a m <> 1 -> modular_inverse a m = Ok None.
Proof.
  intros Ha Hm Hg. unfold modular_inverse.
  rewrite (extended_gcd_gcd a m Ha Hm).
  destruct (Z.eqb_spec (Z.gcd a m) 1); [contradiction | reflexivity].
Qed.

(** C10: for non-negative [a] and [b], [extended_gcd a b] returns a triple
    [(g, x, y)] with [g = gcd(a, b)] and [a*x + b*y = g].  The function is
    total: the recursion on [(b % a, a)] is well founded on [|a|]. *)
Theorem extended_gcd_correct a b :
  0 <= a -> 0 <= b ->
  exists g x y,
    extended_gcd a b = (g, x, y) /\ g = Z.gcd a b /\ a * x + b * y = g.
Proof.
  intros Ha Hb.
  pose proof (extended_gcd_gcd a b Ha Hb) as Hg.
  pose proof (extended_gcd_bezout a b) as Hbez.
  destruct (extended_gcd a b) as [[g x] y]. cbn in Hg.
  exists g, x, y. auto.
Qed.

Lemma extended_gcd_correct_witness :
  exists g x y,
    extended_gcd 240 46 = (g, x, y) /\ g = Z.gcd 240 46 /\
    240 * x + 46 * y = g.
Proof. apply (extended_gcd_correct 240 46); lia. Defined.

(** C2: for [m >= 2] and [a] in [[1, m)], [modular_inverse a m] returns
    [None] exactly when [gcd(a, m) <> 1], and otherwise returns some [x] in
    [[0, m)] with [(a*x) mod m = 1]. *)
Theorem modular_inverse_spec a m :
  2 <= m -> 1 <= a < m ->
  (modular_inverse a m = Ok None <-> Z.gcd a m <> 1) /\
  (Z.gcd a m = 1 ->
   exists x, modular_inverse a m = Ok (Some x) /\
             0 <= x < m /\ (a * x) mod m = 1).
Proof.
  intros Hm Ha. split.
  - split.
    + intros Hnone Hg.
      destruct (modular_inverse_coprime a m) as (x & Hx & _); [lia..|assumption|].
      congruence.
    + apply modular_inverse_not_coprime; lia.
  - intros Hg.
    destruct (modular_inverse_coprime a m) as (x & Hx & Hr & Hinv);
      [lia..|assumption|].
    rewrite Z.mod_1_l in Hinv by lia. eauto.
Qed.

Lemma modular_inverse_spec_witness :
  (modular_inverse 13 26 = Ok None <-> Z.gcd 13 26 <> 1) /\
  exists x, modular_inverse 5 26 = Ok (Some x) /\
            0 <= x < 26 /\ (5 * x) mod 26 = 1.
Proof.
  split.
  - apply (modular_inverse_spec 13 26); lia.
  - apply (modular_inverse_spec 5 26); [lia | lia | reflexivity].
Defined.

(** ** [decrypt] on ASCII text *)

Lemma modular_inverse_raise a m e :
  modular_inverse a m = Raise e -> e = ZeroDivisionError.
Proof.
  unfold modular_inverse, py_mod.
  destruct (extended_gcd a m) as [[g x] y]. cbn [fst].
  destruct (negb (g =? 1)); [discriminate|].
  destruct (m =? 0); cbn; congruence.
Qed.

Lemma is_ascii_spec c : is_ascii c = true <-> 0 <= c < 128.
Proof. unfold is_ascii. lia. Qed.

Lemma in_AZ_spec c : in_AZ c = true <-> 65 <= c <= 90.
Proof. unfold in_AZ. lia. Qed.

Lemma in_az_spec c : in_az c = true <-> 97 <= c <= 122.
Proof. unfold in_az. lia. Qed.

Lemma ascii_text_cons c s :
  ascii_text (c :: s) <-> is_ascii c = true /\ ascii_text s.
Proof. unfold ascii_text. cbn. rewrite andb_true_iff. tauto. Qed.

Section DecryptFacts.
Variable U : UnicodeData.
Variables m shift k : Z.

Lemma decrypt_char_other c :
  isalpha U c = false -> decrypt_char U m shift k c = Ok [c].
Proof. unfold decrypt_char. intros ->. reflexivity. Qed.

Lemma isalpha_ascii c :
  is_ascii c = true -> isalpha U c = is_letter c.
Proof. unfold isalpha. intros ->. reflexivity. Qed.

Lemma ord_lower_ascii c :
  is_ascii c = true -> ord (lower U c) = Ok (letter_index c + ord_a).
Proof.
  unfold lower, letter_index, ord_a. intros ->.
  destruct (in_AZ c); cbn; f_equal; lia.
Qed.

(** With an inverse at hand, an ASCII letter goes through the arithmetic up
    to [chr]. *)
Lemma decrypt_char_letter inverse c :
  modular_inverse k m = Ok (Some inverse) -> m <> 0 ->
  is_ascii c = true -> is_letter c = true ->
  decrypt_char U m shift k c =
    let* decrypted_char :=
      chr (((letter_index c - shift) * inverse) mod m + ord_a) in
    Ok (if in_AZ c then str_upper U decrypted_char else decrypted_char).
Proof.
  intros Hinv Hm Hc Hl. unfold decrypt_char.
  rewrite (isalpha_ascii c Hc), Hl, (ord_lower_ascii c Hc), Hinv. cbn [bind py_mul].
  unfold py_mod. destruct (Z.eqb_spec m 0) as [?|_]; [contradiction|].
  cbn [bind]. unfold isupper. rewrite Hc.
  replace (letter_index c + ord_a - ord_a - shift)
    with (letter_index c - shift) by lia.
  reflexivity.
Qed.

Lemma decrypt_char_ascii inverse c :
  modular_inverse k m = Ok (Some inverse) -> 1 <= m <= 26 ->
  is_ascii c = true ->
  decrypt_char U m shift k c = Ok [plain_char m shift inverse c].
Proof.
  intros Hinv Hm Hc. unfold plain_char.
  destruct (is_letter c) eqn:Hl.
  - rewrite (decrypt_char_letter inverse c) by (auto; lia).
    pose proof (Z.mod_pos_bound ((letter_index c - shift) * inverse) m
                  ltac:(lia)) as Hr.
    set (r := ((letter_index c - shift) * inverse) mod m) in *.
    unfold chr, ord_a.
    replace ((0 <=? r + 97) && (r + 97 <? 1114112)) with true by lia.
    cbn [bind]. destruct (in_AZ c); [|reflexivity].
    cbn [str_upper flat_map]. unfold upper, is_ascii, in_az.
    replace ((0 <=? r + 97) && (r + 97 <? 128)) with true by lia.
    replace ((97 <=? r + 97) && (r + 97 <=? 122)) with true by lia.
    reflexivity.
  - apply decrypt_char_other. rewrite isalpha_ascii; assumption.
Qed.

(** The loop appends what each character gives. *)
Lemma decrypt_loop_ok s ts acc :
  Forall2 (fun c t => decrypt_char U m shift k c = Ok t) s ts ->
  decrypt_loop U m s shift k acc = Ok (acc ++ concat ts).
Proof.
  intros H. revert acc.
  induction H as [|c t s ts Hc _ IH]; intros acc; cbn.
  - rewrite app_nil_r. reflexivity.
  - rewrite Hc. cbn [bind]. rewrite IH, app_assoc. reflexivity.
Qed.

Lemma decrypt_ascii inverse s :
  modular_inverse k m = Ok (Some inverse) -> 1 <= m <= 26 ->
  ascii_text s ->
  decrypt U m s shift k = Ok (map (plain_char m shift inverse) s).
Proof.
  intros Hinv Hm Hs. unfold decrypt.
  rewrite (decrypt_loop_ok s (map (fun c => [plain_char m shift inverse c]) s)).
  - f_equal. cbn. induction s as [|c s IH]; cbn; [reflexivity|].
    f_equal. apply IH. apply ascii_text_cons in Hs. tauto.
  - induction s as [|c s IH]; cbn; constructor.
    + apply decrypt_char_ascii; auto. apply ascii_text_cons in Hs. tauto.
    + apply IH. apply ascii_text_cons in Hs. tauto.
Qed.
End DecryptFacts.

Section DecryptTotal.
Variable U : UnicodeData.
Variables m shift k inverse : Z.
Hypothesis Hinverse : modular_inverse k m = Ok (Some inverse).

Lemma decrypt_char_not_None c :
  decrypt_char U m shift k c <> Raise TypeError_NoneType.
Proof.
  unfold decrypt_char. destruct (isalpha U c); [|discriminate].
  destruct (ord (lower U c)) as [o|e] eqn:Ho; cbn [bind].
  - rewrite Hinverse. cbn [bind py_mul]. unfold py_mod, chr.
    destruct (m =? 0); cbn [bind]; [discriminate|].
    match goal with |- context [if ?b then Ok _ else _] => destruct b end;
      cbn [bind]; discriminate.
  - unfold ord in Ho. destruct (lower U c) as [|? [|? ?]]; congruence.
Qed.

Lemma decrypt_loop_not_None s acc :
  decrypt_loop U m s shift k acc <> Raise TypeError_NoneType.
Proof.
  revert acc. induction s as [|c s IH]; intros acc; cbn; [discriminate|].
  pose proof (decrypt_char_not_None c) as Hc.
  destruct (decrypt_char U m shift k c) as [t|e]; cbn [bind].
  - apply IH.
  - congruence.
Qed.

Lemma decrypt_char_total c :
  1 <= m <= 1114015 -> is_ascii c = true ->
  exists t, decrypt_char U m shift k c = Ok t.
Proof.
  intros Hm Hc. destruct (is_letter c) eqn:Hl.
  - rewrite (decrypt_char_letter U m shift k inverse c) by (auto; lia).
    pose proof (Z.mod_pos_bound ((letter_index c - shift) * inverse) m
                  ltac:(lia)) as Hr.
    unfold chr, ord_a.
    match goal with |- context [if ?b then Ok _ else _] =>
      replace b with true by lia end.
    cbn [bind]. eauto.
  - exists [c]. apply decrypt_char_other. rewrite isalpha_ascii; assumption.
Qed.

Lemma decrypt_total s :
  1 <= m <= 1114015 -> ascii_text s ->
  exists p, decrypt U m s shift k = Ok p.
Proof.
  intros Hm Hs.
  assert (exists ts,
             Forall2 (fun c t => decrypt_char U m shift k c = Ok t) s ts)
    as [ts Hts].
  { induction s as [|c s IH].
    - exists []. constructor.
    - apply ascii_text_cons in Hs. destruct Hs as [Hc Hs].
      destruct (IH Hs) as [ts Hts].
      destruct (decrypt_char_total c Hm Hc) as [t Ht].
      exists (t :: ts). constructor; assumption. }
  exists (concat ts). unfold decrypt.
  rewrite (decrypt_loop_ok U m shift k s ts []); auto.
Qed.
End DecryptTotal.

(** Without an inverse, the first letter of an ASCII text meets [None]. *)
Lemma decrypt_loop_None U m shift k s acc :
  modular_inverse k m = Ok None ->
  ascii_text s -> existsb (isalpha U) s = true ->
  decrypt_loop U m s shift k acc = Raise TypeError_NoneType.
Proof.
  intros Hnone. revert acc.
  induction s as [|c s IH]; intros acc Hs Hex; cbn in *; [discriminate|].
  apply ascii_text_cons in Hs. destruct Hs as [Hc Hs].
  unfold decrypt_char. destruct (isalpha U c) eqn:Ha.
  - rewrite (ord_lower_ascii U c Hc), Hnone. reflexivity.
  - cbn [bind]. apply IH; assumption.
Qed.

(** C9, as amended: for a positive alphabet size and a non-negative
    multiplier coprime with it, [modular_inverse] returns an integer, so
    [decrypt] never multiplies by [None], and it returns a string on every
    ASCII ciphertext as long as the alphabet size is at most 1114015 (beyond
    that [chr] can raise).  When the multiplier is not coprime with the
    alphabet size, [decrypt] raises the [TypeError] of the multiplication by
    [None] on every ASCII ciphertext that contains a letter. *)
Theorem decrypt_inverse_defined U m k :
  1 <= m -> 0 <= k ->
  (Z.gcd k m = 1 ->
   (exists inverse, modular_inverse k m = Ok (Some inverse)) /\
   (forall s shift, decrypt U m s shift k <> Raise TypeError_NoneType) /\
   (m <= 1114015 ->
    forall s shift, ascii_text s -> exists p, decrypt U m s shift k = Ok p)) /\
  (Z.gcd k m <> 1 ->
   forall s shift,
     ascii_text s -> existsb (isalpha U) s = true ->
     decrypt U m s shift k = Raise TypeError_NoneType).
Proof.
  intros Hm Hk. split.
  - intros Hg.
    destruct (modular_inverse_coprime k m Hk ltac:(lia) Hg) as (inv & Hinv & _).
    split; [eauto|]. split.
    + intros s shift. apply (decrypt_loop_not_None U m shift k inv Hinv).
    + intros Hm' s shift Hs.
      apply (decrypt_total U m shift k inv Hinv); [lia | assumption].
  - intros Hg s shift Hs Hex. apply decrypt_loop_None; auto.
    apply modular_inverse_not_coprime; [lia..|assumption].
Qed.

Lemma decrypt_inverse_defined_witness :
  ((exists inverse, modular_inverse 5 26 = Ok (Some inverse)) /\
   decrypt ascii_only 26 (py "Hi!") 3 5 <> Raise TypeError_NoneType /\
   exists p, decrypt ascii_only 26 (py "Hi!") 3 5 = Ok p) /\
  decrypt ascii_only 26 (py "Hi!") 3 13 = Raise TypeError_NoneType.
Proof.
  split.
  - destruct (decrypt_inverse_defined ascii_only 26 5) as [Hcoprime _];
      [lia | lia |].
    destruct (Hcoprime eq_refl) as (Hinv & Hnone & Htotal).
    split; [exact Hinv|]. split; [apply Hnone|].
    apply Htotal; [lia | reflexivity].
  - apply (decrypt_inverse_defined ascii_only 26 13);
      [lia | lia | discriminate | reflexivity | reflexivity].
Defined.

(** C9 as stated fails: with the coprime multiplier 1 and the alphabet size
    2000000, [decrypt] raises on the ciphertext "b" (the [ValueError] of
    [chr]), whatever the Unicode database. *)
Lemma decrypt_raises_on_large_alphabet :
  Z.gcd 1 2000000 = 1 /\
  forall U, decrypt U 2000000 (py "b") 2 1 = Raise ValueError_chr.
Proof. split; [reflexivity | intros U; vm_compute; reflexivity]. Qed.

Lemma valid_key_inverse m shift k :
  valid_key m shift k ->
  exists inverse, modular_inverse k m = Ok (Some inverse) /\
                  0 <= inverse < m /\ (k * inverse) mod m = 1 mod m.
Proof.
  intros (Hs & Hk & Hg). apply modular_inverse_coprime; [lia..|assumption].
Qed.

Lemma plain_char_other m shift inverse c :
  is_letter c = false -> plain_char m shift inverse c = c.
Proof. unfold plain_char. intros ->. reflexivity. Qed.

(** C5, as amended: for an alphabet size in [[2, 26]], a valid key and an
    ASCII ciphertext of length [N], [decrypt] returns a string of length [N]
    in which every non-alphabetic character of the input is unchanged at its
    position. *)
Theorem decrypt_preserves_layout U m shift k s :
  2 <= m <= 26 -> valid_key m shift k -> ascii_text s ->
  exists p,
    decrypt U m s shift k = Ok p /\
    length p = length s /\
    forall i c,
      nth_error s i = Some c -> isalpha U c = false -> nth_error p i = Some c.
Proof.
  intros Hm Hkey Hs.
  destruct (valid_key_inverse m shift k Hkey) as (inv & Hinv & _).
  exists (map (plain_char m shift inv) s). split; [|split].
  - apply decrypt_ascii; [assumption | lia | assumption].
  - apply length_map.
  - intros i c Hi Ha.
    rewrite (map_nth_error _ _ _ Hi). f_equal.
    apply plain_char_other.
    rewrite <- (isalpha_ascii U); [assumption|].
    unfold ascii_text in Hs. rewrite forallb_forall in Hs.
    apply Hs. eapply nth_error_In, Hi.
Qed.

Lemma decrypt_preserves_layout_witness :
  exists p,
    decrypt ascii_only 26 (py "Ymj, 7 hfy!") 3 5 = Ok p /\
    length p = length (py "Ymj, 7 hfy!") /\
    forall i c,
      nth_error (py "Ymj, 7 hfy!") i = Some c ->
      isalpha ascii_only c = false -> nth_error p i = Some c.
Proof.
  apply (decrypt_preserves_layout ascii_only 26 3 5 (py "Ymj, 7 hfy!")).
  - lia.
  - unfold valid_key. split; [lia|]. split; [lia | reflexivity].
  - reflexivity.
Defined.

(** C5 as stated fails: the key (1, 1) is valid for the alphabet size
    1114016, and [decrypt] raises on the one-letter ciphertext "a" instead of
    returning a string of length one. *)
Lemma decrypt_layout_fails_on_large_alphabet :
  valid_key 1114016 1 1 /\
  forall U, decrypt U 1114016 (py "a") 1 1 = Raise ValueError_chr.
Proof.
  split.
  - unfold valid_key. split; [lia|]. split; [lia | reflexivity].
  - intros U. vm_compute. reflexivity.
Qed.

(** C6, as amended: for an alphabet size in [[2, 26]], a valid key and an
    ASCII ciphertext, the character [decrypt] writes for a letter is uppercase
    when the letter is uppercase and lowercase when it is lowercase. *)
Theorem decrypt_preserves_case U m shift k s :
  2 <= m <= 26 -> valid_key m shift k -> ascii_text s ->
  exists p,
    decrypt U m s shift k = Ok p /\
    forall i c,
      nth_error s i = Some c -> isalpha U c = true ->
      exists d,
        nth_error p i = Some d /\
        (isupper U c = true -> isupper U d = true) /\
        (islower U c = true -> islower U d = true).
Proof.
  intros Hm Hkey Hs.
  destruct (valid_key_inverse m shift k Hkey) as (inv & Hinv & _).
  exists (map (plain_char m shift inv) s). split.
  - apply decrypt_ascii; [assumption | lia | assumption].
  - intros i c Hi Ha. exists (plain_char m shift inv c).
    split; [apply map_nth_error, Hi|].
    assert (is_ascii c = true) as Hc.
    { unfold ascii_text in Hs. rewrite forallb_forall in Hs.
      apply Hs. eapply nth_error_In, Hi. }
    rewrite (isalpha_ascii U c Hc) in Ha.
    unfold plain_char. rewrite Ha.
    pose proof (Z.mod_pos_bound ((letter_index c - shift) * inv) m
                  ltac:(lia)) as Hr.
    set (r := ((letter_index c - shift) * inv) mod m) in *.
    unfold isupper, islower, ord_a. rewrite Hc.
    unfold is_letter in Ha. apply orb_true_iff in Ha.
    destruct (in_AZ c) eqn:HAZ.
    + replace (is_ascii (r + 97 - 32)) with true by (unfold is_ascii; lia).
      split; intros Hcase.
      * unfold in_AZ. lia.
      * apply in_AZ_spec in HAZ. apply in_az_spec in Hcase. lia.
    + replace (is_ascii (r + 97)) with true by (unfold is_ascii; lia).
      split; intros Hcase; [discriminate|].
      unfold in_az. lia.
Qed.

Lemma decrypt_preserves_case_witness :
  exists p,
    decrypt ascii_only 26 (py "Ymj Hfy") 3 5 = Ok p /\
    forall i c,
      nth_error (py "Ymj Hfy") i = Some c -> isalpha ascii_only c = true ->
      exists d,
        nth_error p i = Some d /\
        (isupper ascii_only c = true -> isupper ascii_only d = true) /\
        (islower ascii_only c = true -> islower ascii_only d = true).
Proof.
  apply (decrypt_preserves_case ascii_only 26 3 5 (py "Ymj Hfy")).
  - lia.
  - unfold valid_key. split; [lia|]. split; [lia | reflexivity].
  - reflexivity.
Defined.

(** C6 as stated fails: with the alphabet size 27 and the valid key (1, 1),
    [decrypt] turns the uppercase letter "A" into the character 123, an
    opening brace, which is not uppercase. *)
Lemma decrypt_case_fails_beyond_26 :
  valid_key 27 1 1 /\
  forall U,
    decrypt U 27 (py "A") 1 1 = Ok [123] /\
    isalpha U 65 = true /\ isupper U 65 = true /\ isupper U 123 = false.
Proof.
  split.
  - unfold valid_key. split; [lia|]. split; [lia | reflexivity].
  - intros U. vm_compute. auto.
Qed.

(** ** Round trip and injectivity *)

Section Congruences.
Variable m : Z.
Hypothesis Hm : 0 < m.

Lemma mod_eq_divide a b : a mod m = b mod m <-> (m | a - b).
Proof.
  split.
  - intros H. exists (a / m - b / m).
    pose proof (Z.div_mod a m ltac:(lia)).
    pose proof (Z.div_mod b m ltac:(lia)). nia.
  - intros [q Hq]. replace a with (b + q * m) by lia.
    apply Z.mod_add. lia.
Qed.

Lemma divide_small d : (m | d) -> - m < d < m -> d = 0.
Proof.
  intros [q Hq] Hd. destruct (Z.eq_dec q 0) as [->|Hq0]; [lia|].
  assert (q <= -1 \/ 1 <= q) as [?|?] by lia; nia.
Qed.

(** Decryption undoes encryption on alphabet positions. *)
Lemma affine_roundtrip x shift k inverse :
  0 <= x < m -> (k * inverse) mod m = 1 mod m ->
  (((x * k + shift) mod m - shift) * inverse) mod m = x.
Proof.
  intros Hx Hinv.
  rewrite <- (Z.mod_small x m) at 2 by lia.
  apply mod_eq_divide. apply mod_eq_divide in Hinv.
  destruct Hinv as [q Hq].
  pose proof (Z.div_mod (x * k + shift) m ltac:(lia)) as Hdiv.
  exists (x * q - (x * k + shift) / m * inverse). nia.
Qed.

(** Two keys that agree on two positions whose difference is invertible
    are the same key. *)
Lemma affine_key_unique x1 x2 s1 k1 i1 s2 k2 i2 :
  0 <= s1 < m -> 0 <= s2 < m -> 1 <= k1 < m -> 1 <= k2 < m ->
  0 <= i1 < m -> 0 <= i2 < m ->
  (k1 * i1) mod m = 1 mod m -> (k2 * i2) mod m = 1 mod m ->
  Z.gcd (x1 - x2) m = 1 ->
  ((x1 - s1) * i1) mod m = ((x1 - s2) * i2) mod m ->
  ((x2 - s1) * i1) mod m = ((x2 - s2) * i2) mod m ->
  s1 = s2 /\ k1 = k2.
Proof.
  intros Hs1 Hs2 Hk1 Hk2 Hi1 Hi2 Hinv1 Hinv2 Hg H1 H2.
  apply mod_eq_divide in Hinv1, Hinv2, H1, H2.
  assert (i1 = i2) as <-.
  { assert (m | (x1 - x2) * (i1 - i2)) as Hd.
    { replace ((x1 - x2) * (i1 - i2))
        with ((x1 - s1) * i1 - (x1 - s2) * i2 -
              ((x2 - s1) * i1 - (x2 - s2) * i2)) by ring.
      apply Z.divide_sub_r; assumption. }
    apply Z.gauss in Hd; [|rewrite Z.gcd_comm; assumption].
    apply divide_small in Hd; lia. }
  assert (k1 = k2) as <-.
  { assert (m | k1 - k2) as Hd.
    { replace (k1 - k2)
        with (k2 * (k1 * i1 - 1) - k1 * (k2 * i1 - 1)) by ring.
      apply Z.divide_sub_r; apply Z.divide_mul_r; assumption. }
    apply divide_small in Hd; lia. }
  split; [|reflexivity].
  assert (m | s2 - s1) as Hd.
  { replace (s2 - s1)
      with (k1 * ((x1 - s1) * i1 - (x1 - s2) * i1) -
            (s2 - s1) * (k1 * i1 - 1)) by ring.
    apply Z.divide_sub_r; apply Z.divide_mul_r; assumption. }
  apply divide_small in Hd; lia.
Qed.
End Congruences.

Section EncryptFacts.
Variable U : UnicodeData.
Variables m shift k : Z.
Hypothesis Hm : 1 <= m <= 26.

Lemma encrypt_char_ascii c :
  is_ascii c = true ->
  encrypt_char U m shift k c = Ok [cipher_char m shift k c].
Proof.
  intros Hc. unfold encrypt_char, cipher_char.
  rewrite (isalpha_ascii U c Hc).
  destruct (is_letter c) eqn:Hl; [|reflexivity].
  rewrite (ord_lower_ascii U c Hc). cbn [bind].
  unfold py_mod. destruct (Z.eqb_spec m 0) as [?|_]; [lia|]. cbn [bind].
  replace (letter_index c + ord_a - ord_a) with (letter_index c) by lia.
  pose proof (Z.mod_pos_bound (letter_index c * k + shift) m
                ltac:(lia)) as Hr.
  set (r := (letter_index c * k + shift) mod m) in *.
  unfold chr, ord_a.
  replace ((0 <=? r + 97) && (r + 97 <? 1114112)) with true by lia.
  cbn [bind]. unfold isupper. rewrite Hc.
  destruct (in_AZ c); [|reflexivity].
  cbn [str_upper flat_map]. unfold upper.
  replace (is_ascii (r + 97)) with true by (unfold is_ascii; lia).
  replace (in_az (r + 97)) with true by (unfold in_az; lia).
  reflexivity.
Qed.

Lemma encrypt_ascii s :
  ascii_text s -> encrypt U m s shift k = Ok (map (cipher_char m shift k) s).
Proof.
  induction s as [|c s IH]; intros Hs; cbn; [reflexivity|].
  apply ascii_text_cons in Hs. destruct Hs as [Hc Hs].
  rewrite (encrypt_char_ascii c Hc), (IH Hs). reflexivity.
Qed.

Lemma cipher_char_ascii c : is_ascii c = true -> is_ascii (cipher_char m shift k c) = true.
Proof.
  intros Hc. unfold cipher_char.
  destruct (is_letter c); [|assumption].
  pose proof (Z.mod_pos_bound (letter_index c * k + shift) m ltac:(lia)).
  unfold is_ascii, ord_a. destruct (in_AZ c); lia.
Qed.

Lemma plain_cipher_char inverse c :
  (k * inverse) mod m = 1 mod m ->
  is_letter c = false \/ 0 <= letter_index c < m ->
  plain_char m shift inverse (cipher_char m shift k c) = c.
Proof.
  intros Hinv Hidx. unfold cipher_char.
  destruct (is_letter c) eqn:Hl; [|apply plain_char_other; assumption].
  destruct Hidx as [?|Hidx]; [congruence|].
  pose proof (Z.mod_pos_bound (letter_index c * k + shift) m
                ltac:(lia)) as Hr.
  pose proof (affine_roundtrip m ltac:(lia) (letter_index c) shift k inverse
                Hidx Hinv) as Hrt.
  set (r := (letter_index c * k + shift) mod m) in *.
  unfold is_letter in Hl. apply orb_true_iff in Hl.
  rewrite in_AZ_spec, in_az_spec in Hl.
  unfold plain_char, is_letter, ord_a.
  destruct (in_AZ c) eqn:HAZ.
  - apply in_AZ_spec in HAZ.
    replace (in_AZ (r + 97 - 32)) with true by (unfold in_AZ; lia).
    cbn [orb].
    replace (letter_index (r + 97 - 32)) with r
      by (unfold letter_index, ord_a;
          replace (in_AZ (r + 97 - 32)) with true by (unfold in_AZ; lia);
          lia).
    rewrite Hrt. unfold letter_index, ord_a.
    replace (in_AZ c) with true by (unfold in_AZ; lia). lia.
  - assert (~ 65 <= c <= 90) by (rewrite <- in_AZ_spec; congruence).
    replace (in_AZ (r + 97)) with false by (unfold in_AZ; lia).
    replace (in_az (r + 97)) with true by (unfold in_az; lia).
    cbn [orb].
    replace (letter_index (r + 97)) with r
      by (unfold letter_index, ord_a;
          replace (in_AZ (r + 97)) with false by (unfold in_AZ; lia);
          lia).
    rewrite Hrt. unfold letter_index, ord_a. rewrite HAZ. lia.
Qed.
End EncryptFacts.

(** C1, as amended: for an alphabet size [m] in [[2, 26]], a non-negative
    multiplier coprime with [m], any shift, and an ASCII plaintext whose
    letters are among the first [m] letters of the alphabet, the forward
    affine transform followed by [decrypt] returns the plaintext. *)
Theorem decrypt_encrypt_roundtrip U m shift k p :
  2 <= m <= 26 -> 0 <= k -> Z.gcd k m = 1 -> in_alphabet m p ->
  exists c, encrypt U m p shift k = Ok c /\ decrypt U m c shift k = Ok p.
Proof.
  intros Hm Hk Hg Hp.
  destruct (modular_inverse_coprime k m Hk ltac:(lia) Hg)
    as (inv & Hinv & _ & Hone).
  unfold in_alphabet in Hp. rewrite forallb_forall in Hp.
  assert (ascii_text p) as Hascii.
  { unfold ascii_text. apply forallb_forall. intros c Hc.
    apply Hp in Hc. apply andb_true_iff in Hc. tauto. }
  exists (map (cipher_char m shift k) p). split.
  - apply encrypt_ascii; [lia | assumption].
  - rewrite (decrypt_ascii U m shift k inv); [|assumption|lia|].
    + f_equal. rewrite map_map. rewrite <- (map_id p) at 2.
      apply map_ext_in. intros c Hc.
      apply plain_cipher_char; [lia | assumption |].
      apply Hp in Hc. apply andb_true_iff in Hc. destruct Hc as [Hc Hidx].
      apply orb_true_iff in Hidx. destruct Hidx as [Hl|Hidx].
      * left. apply negb_true_iff, Hl.
      * destruct (is_letter c) eqn:Hl; [right|left; reflexivity].
        unfold is_letter in Hl. apply orb_true_iff in Hl.
        rewrite in_AZ_spec, in_az_spec in Hl.
        unfold letter_index, ord_a in *.
        destruct (in_AZ c) eqn:HAZ; [apply in_AZ_spec in HAZ; lia|].
        assert (~ 65 <= c <= 90) by (rewrite <- in_AZ_spec; congruence). lia.
    + unfold ascii_text. apply forallb_forall. intros d Hd.
      apply in_map_iff in Hd. destruct Hd as (c & <- & Hc).
      apply cipher_char_ascii; [lia|].
      apply Hp in Hc. apply andb_true_iff in Hc. tauto.
Qed.

Lemma decrypt_encrypt_roundtrip_witness :
  exists c,
    encrypt ascii_only 26 (py "The cat sat, 3 times!") 3 5 = Ok c /\
    decrypt ascii_only 26 c 3 5 = Ok (py "The cat sat, 3 times!").
Proof.
  apply (decrypt_encrypt_roundtrip ascii_only 26 3 5 (py "The cat sat, 3 times!"));
    [lia | lia | reflexivity | reflexivity].
Defined.

(** C1 as stated fails: with the alphabet size 2, the coprime multiplier 1
    and the shift 0, the forward transform sends "c" (position 2) to "a", and
    [decrypt] returns "a", not "c". *)
Lemma roundtrip_fails_outside_alphabet :
  Z.gcd 1 2 = 1 /\
  forall U,
    encrypt U 2 (py "c") 0 1 = Ok (py "a") /\
    decrypt U 2 (py "a") 0 1 = Ok (py "a") /\ py "a" <> py "c".
Proof.
  split; [reflexivity|]. intros U. vm_compute. repeat split. discriminate.
Qed.

Lemma plain_char_residue m s1 i1 s2 i2 c :
  is_letter c = true ->
  plain_char m s1 i1 c = plain_char m s2 i2 c ->
  ((letter_index c - s1) * i1) mod m = ((letter_index c - s2) * i2) mod m.
Proof.
  unfold plain_char. intros ->. destruct (in_AZ c); lia.
Qed.

Lemma decrypt_no_letters U m s shift k :
  existsb (isalpha U) s = false -> decrypt U m s shift k = Ok s.
Proof.
  intros Hs. unfold decrypt.
  rewrite (decrypt_loop_ok U m shift k s (map (fun c => [c]) s)).
  - f_equal. cbn. clear Hs. induction s as [|c s IH]; cbn; congruence.
  - induction s as [|c s IH]; cbn in *; constructor;
      apply orb_false_iff in Hs; destruct Hs as [Hc Hs].
    + apply decrypt_char_other, Hc.
    + apply IH, Hs.
Qed.

(** A sufficient condition: two letters whose alphabet positions differ by a
    number coprime with [m] determine the key. *)
Lemma decrypt_key_injective_coprime U m s :
  2 <= m <= 26 -> ascii_text s ->
  (forall i j c1 c2 shift1 k1 shift2 k2,
     nth_error s i = Some c1 -> nth_error s j = Some c2 ->
     is_letter c1 = true -> is_letter c2 = true ->
     Z.gcd (letter_index c1 - letter_index c2) m = 1 ->
     valid_key m shift1 k1 -> valid_key m shift2 k2 ->
     decrypt U m s shift1 k1 = decrypt U m s shift2 k2 ->
     shift1 = shift2 /\ k1 = k2) /\
  (existsb (isalpha U) s = false ->
   forall shift k, decrypt U m s shift k = Ok s).
Proof.
  intros Hm Hs. split.
  - intros i j c1 c2 shift1 k1 shift2 k2 Hi Hj Hl1 Hl2 Hg Hkey1 Hkey2 Heq.
    destruct (valid_key_inverse m shift1 k1 Hkey1) as (i1 & Hinv1 & Hr1 & Hone1).
    destruct (valid_key_inverse m shift2 k2 Hkey2) as (i2 & Hinv2 & Hr2 & Hone2).
    rewrite (decrypt_ascii U m shift1 k1 i1 s Hinv1 ltac:(lia) Hs) in Heq.
    rewrite (decrypt_ascii U m shift2 k2 i2 s Hinv2 ltac:(lia) Hs) in Heq.
    injection Heq as Heq.
    assert (forall n c, nth_error s n = Some c ->
                        plain_char m shift1 i1 c = plain_char m shift2 i2 c)
      as Hchar.
    { intros n c Hn.
      pose proof (map_nth_error (plain_char m shift1 i1) n s Hn) as E1.
      pose proof (map_nth_error (plain_char m shift2 i2) n s Hn) as E2.
      rewrite Heq in E1. congruence. }
    destruct Hkey1 as (? & ? & _), Hkey2 as (? & ? & _).
    apply (affine_key_unique m ltac:(lia) (letter_index c1) (letter_index c2)
             shift1 k1 i1 shift2 k2 i2); auto.
    + apply plain_char_residue; eauto.
    + apply plain_char_residue; eauto.
  - intros Hnone shift k. apply decrypt_no_letters, Hnone.
Qed.


(** ** [calculate_score] counts words *)

Lemma split_run (P : Z -> bool) (l : str) :
  exists w r,
    l = w ++ r /\ forallb P w = true /\
    match r with [] => True | d :: _ => P d = false end.
Proof.
  induction l as [|c l (w & r & -> & Hw & Hr)].
  - exists [], []. auto.
  - destruct (P c) eqn:Hc.
    + exists (c :: w), r. cbn. rewrite Hc, Hw. auto.
    + exists [], (c :: w ++ r). cbn. auto.
Qed.

Lemma runs_run (P : Z -> bool) cur w r :
  forallb P w = true ->
  match r with [] => True | d :: _ => P d = false end ->
  runs P cur (w ++ r) = emit (cur ++ w) ++ runs P [] (tail r).
Proof.
  revert cur. induction w as [|c w IH]; intros cur Hw Hr; cbn in *.
  - rewrite app_nil_r. destruct r as [|d r]; cbn.
    + rewrite app_nil_r. reflexivity.
    + rewrite Hr. reflexivity.
  - apply andb_true_iff in Hw. destruct Hw as [Hc Hw].
    rewrite Hc, (IH _ Hw Hr), <- app_assoc. reflexivity.
Qed.

Lemma last_cons {A} (x d : A) (l : list A) :
  List.last (x :: l) d = List.last l x.
Proof.
  revert x d. induction l as [|y l IH]; intros x d; [reflexivity|].
  change (List.last (x :: y :: l) d) with (List.last (y :: l) d).
  rewrite !IH. reflexivity.
Qed.

Section FindallFacts.
Variable U : UnicodeData.

Lemma in_az_isword c : in_az c = true -> isword U c = true.
Proof.
  intros H. apply in_az_spec in H. unfold isword.
  replace (is_ascii c) with true by (unfold is_ascii; lia).
  replace (in_az c) with true by (unfold in_az; lia).
  rewrite orb_true_r. reflexivity.
Qed.

Lemma not_isword_in_az c : isword U c = false -> in_az c = false.
Proof.
  intros H. destruct (in_az c) eqn:E; [|reflexivity].
  apply in_az_isword in E. congruence.
Qed.

(** [[a-z]*\b] after a word character succeeds exactly when the rest of
    the run of word characters is made of letters, and then takes it
    whole. *)
Lemma match_more_run last w r :
  isword U last = true -> forallb (isword U) w = true ->
  match r with [] => True | d :: _ => isword U d = false end ->
  match_more U last (w ++ r) =
    if forallb in_az w then Some (w, r) else None.
Proof.
  revert last. induction w as [|c w IH]; intros last Hlast Hw Hr.
  - cbn [app forallb]. destruct r as [|d r]; cbn.
    + unfold word_boundary. cbn. rewrite Hlast. reflexivity.
    + rewrite (not_isword_in_az d Hr). unfold word_boundary. cbn.
      rewrite Hlast, Hr. reflexivity.
  - cbn [forallb] in Hw. apply andb_true_iff in Hw. destruct Hw as [Hc Hw].
    cbn [app match_more forallb].
    assert (word_boundary U (Some last) (c :: w ++ r) = false) as Hb.
    { unfold word_boundary. cbn. rewrite Hlast, Hc. reflexivity. }
    rewrite Hb. destruct (in_az c); [|reflexivity].
    rewrite (IH c Hc Hw Hr). cbn [andb].
    destruct (forallb in_az w); reflexivity.
Qed.

(** Stepping over the characters of a match. *)
Lemma findall_from_skip prev w r :
  findall_from U prev (w ++ r) (length w) =
    findall_from U (List.last (map Some w) prev) r 0%nat.
Proof.
  revert prev. induction w as [|c w IH]; intros prev; cbn [app length].
  - destruct r; reflexivity.
  - cbn [findall_from]. rewrite IH. cbn [map].
    rewrite last_cons. reflexivity.
Qed.

(** No match starts inside a run of word characters. *)
Lemma findall_from_inside prev w r :
  isword_opt U prev = true -> forallb (isword U) w = true ->
  findall_from U prev (w ++ r) 0%nat =
    findall_from U (List.last (map Some w) prev) r 0%nat.
Proof.
  revert prev. induction w as [|c w IH]; intros prev Hprev Hw.
  - destruct r; reflexivity.
  - cbn [forallb] in Hw. apply andb_true_iff in Hw. destruct Hw as [Hc Hw].
    cbn [app findall_from].
    assert (match_word U prev (c :: w ++ r) = None) as ->.
    { unfold match_word, word_boundary. cbn. rewrite Hprev, Hc. reflexivity. }
    rewrite (IH (Some c)) by assumption. cbn [map].
    rewrite last_cons. reflexivity.
Qed.

Lemma isword_last w prev :
  isword_opt U prev = true -> forallb (isword U) w = true ->
  isword_opt U (List.last (map Some w) prev) = true.
Proof.
  revert prev. induction w as [|c w IH]; intros prev Hprev Hw; [assumption|].
  cbn [forallb] in Hw. apply andb_true_iff in Hw. destruct Hw as [Hc Hw].
  cbn [map]. rewrite last_cons.
  apply IH; assumption.
Qed.

(** At the end of a run no match starts either: the next character is not
    a letter. *)
Lemma findall_from_end prev r :
  isword_opt U prev = true ->
  match r with [] => True | d :: _ => isword U d = false end ->
  findall_from U prev r 0%nat =
    match r with
    | [] => []
    | d :: r' => findall_from U (Some d) r' 0%nat
    end.
Proof.
  intros Hprev Hr. destruct r as [|d r]; [reflexivity|].
  cbn [findall_from]. unfold match_word.
  rewrite (not_isword_in_az d Hr).
  destruct (word_boundary U prev (d :: r)); reflexivity.
Qed.

Lemma findall_from_runs n :
  forall prev text,
    (length text <= n)%nat -> isword_opt U prev = false ->
    findall_from U prev text 0%nat =
      List.filter (forallb in_az) (runs (isword U) [] text).
Proof.
  induction n as [|n IH]; intros prev text Hlen Hprev.
  - destruct text; [reflexivity | cbn in Hlen; lia].
  - destruct text as [|c text]; [reflexivity|].
    cbn [length] in Hlen.
    destruct (isword U c) eqn:Hc.
    + destruct (split_run (isword U) text) as (w & r & -> & Hw & Hr).
      rewrite length_app in Hlen.
      assert (findall_from U (List.last (map Some w) (Some c)) r 0%nat =
              List.filter (forallb in_az) (runs (isword U) [] (tail r)))
        as Hrest.
      { rewrite findall_from_end;
          [|apply isword_last; assumption|assumption].
        destruct r as [|d r]; [reflexivity|].
        apply IH; [cbn in *; lia | assumption]. }
      change (c :: w ++ r) with ((c :: w) ++ r) at 2.
      rewrite (runs_run (isword U) [] (c :: w) r);
        [|cbn; rewrite Hc; assumption|assumption].
      cbn [app emit List.filter forallb].
      cbn [findall_from]. unfold match_word.
      assert (word_boundary U prev (c :: w ++ r) = true) as ->.
      { unfold word_boundary. cbn. rewrite Hprev, Hc. reflexivity. }
      destruct (in_az c) eqn:Haz; cbn [andb].
      * rewrite (match_more_run c w r Hc Hw Hr).
        destruct (forallb in_az w).
        -- replace (length (c :: w) - 1)%nat with (length w)
             by (cbn [length]; lia).
           rewrite findall_from_skip, Hrest. reflexivity.
        -- rewrite findall_from_inside by assumption. apply Hrest.
      * rewrite findall_from_inside by assumption. apply Hrest.
    + cbn [runs]. rewrite Hc. cbn [emit app].
      cbn [findall_from]. unfold match_word, word_boundary. cbn.
      rewrite Hprev, Hc. cbn.
      apply IH; [lia | assumption].
Qed.

Lemma findall_word_runs text :
  findall U text = List.filter (forallb in_az) (word_runs U text).
Proof. apply (findall_from_runs (length text)); [lia | reflexivity]. Qed.

Lemma findall_from_no_letter prev text :
  existsb in_az text = false -> findall_from U prev text 0%nat = [].
Proof.
  revert prev. induction text as [|c text IH]; intros prev H; [reflexivity|].
  cbn in H. apply orb_false_iff in H. destruct H as [Hc H].
  cbn [findall_from]. unfold match_word. rewrite Hc.
  destruct (word_boundary U prev (c :: text)); apply IH, H.
Qed.
End FindallFacts.

Lemma py_sum_count {A} (P : A -> bool) (l : list A) :
  py_sum (map (fun x => Z.b2z (P x)) l) = Z.of_nat (length (List.filter P l)).
Proof.
  unfold py_sum.
  assert (forall acc,
             fold_left Z.add (map (fun x => Z.b2z (P x)) l) acc =
             acc + Z.of_nat (length (List.filter P l))) as H.
  { induction l as [|x l IH]; intros acc; cbn [map fold_left List.filter].
    - cbn. lia.
    - rewrite IH. destruct (P x); cbn [Z.b2z length]; lia. }
  rewrite H. lia.
Qed.

Lemma str_lower_ascii_no_letter U s :
  ascii_text s -> existsb is_letter s = false ->
  existsb in_az (str_lower U s) = false.
Proof.
  intros Hs Hl. unfold str_lower. rewrite Hs.
  induction s as [|c s IH]; [reflexivity|].
  apply ascii_text_cons in Hs. destruct Hs as [Hc Hs].
  cbn in Hl. apply orb_false_iff in Hl. destruct Hl as [Hlc Hl].
  unfold is_letter in Hlc. apply orb_false_iff in Hlc. destruct Hlc as [HAZ Haz].
  cbn [flat_map]. unfold lower at 1. rewrite Hc, HAZ.
  cbn. rewrite Haz. cbn. apply IH; assumption.
Qed.

(** C3, as amended: [calculate_score] returns the number of maximal runs of
    word characters (letters, digits, underscore) of the lowercased plaintext
    that are made of the letters a..z only and are members of the word bank.
    The result is non-negative, and it is 0 for the empty string and for an
    ASCII string without letters. *)
Theorem calculate_score_counts_words (U : UnicodeData) (word_bank : gset str)
    (plaintext : str) :
  calculate_score U word_bank plaintext =
    Z.of_nat (length (List.filter (fun w => bool_decide (w ∈ word_bank))
                                  (letter_words U plaintext))) /\
  0 <= calculate_score U word_bank plaintext /\
  calculate_score U word_bank [] = 0 /\
  (ascii_text plaintext -> existsb (isalpha U) plaintext = false ->
   calculate_score U word_bank plaintext = 0).
Proof.
  assert (forall text,
             calculate_score U word_bank text =
             Z.of_nat (length (List.filter (fun w => bool_decide (w ∈ word_bank))
                                           (letter_words U text)))) as Hcount.
  { intros text. unfold calculate_score, letter_words.
    rewrite py_sum_count, findall_word_runs. reflexivity. }
  split; [apply Hcount|]. split; [rewrite Hcount; lia|]. split.
  - reflexivity.
  - intros Hs Hnone. unfold calculate_score, findall.
    rewrite findall_from_no_letter; [reflexivity|].
    apply str_lower_ascii_no_letter; [assumption|].
    rewrite <- Hnone. clear Hnone.
    induction plaintext as [|c s IH]; [reflexivity|].
    apply ascii_text_cons in Hs. destruct Hs as [Hc Hs].
    cbn. rewrite (isalpha_ascii U c Hc), (IH Hs). reflexivity.
Qed.

Lemma calculate_score_counts_words_witness :
  calculate_score ascii_only {[ py "cat" ]} (py "12 + 7 = 19") = 0.
Proof.
  apply (calculate_score_counts_words ascii_only {[ py "cat" ]}
           (py "12 + 7 = 19"));
    reflexivity.
Defined.

(** C3 as stated fails: in "cat1" the letters "cat" are a maximal run of
    alphabetic characters and a member of the word bank, so the claim counts
    1; the pattern finds no word next to the digit and [calculate_score]
    returns 0. *)
Lemma calculate_score_misses_run_next_to_digit :
  py "cat" ∈ ({[ py "cat" ]} : gset str) /\
  forall U,
    alpha_runs U (py "cat1") = [py "cat"] /\
    claimed_score U {[ py "cat" ]} (py "cat1") = 1 /\
    calculate_score U {[ py "cat" ]} (py "cat1") = 0.
Proof.
  split; [set_solver|]. intros U. vm_compute. auto.
Qed.

(** ** The loops of [find_possible_plaintext] *)

Lemma for_each_ext {A S} (l : list A) (body1 body2 : A -> S -> result S) s :
  (forall x s, In x l -> body1 x s = body2 x s) ->
  for_each l body1 s = for_each l body2 s.
Proof.
  revert s. induction l as [|x l IH]; intros s H; cbn; [reflexivity|].
  rewrite (H x s) by (left; reflexivity).
  destruct (body2 x s) as [s'|e]; cbn [bind]; [|reflexivity].
  apply IH. intros y t Hy. apply H. right. assumption.
Qed.

Lemma for_each_app {A S} (l1 l2 : list A) (body : A -> S -> result S) s :
  for_each (l1 ++ l2) body s =
    let* s' := for_each l1 body s in for_each l2 body s'.
Proof.
  revert s. induction l1 as [|x l1 IH]; intros s; cbn; [reflexivity|].
  destruct (body x s) as [s'|e]; cbn [bind]; [apply IH | reflexivity].
Qed.

Lemma for_each_flat_map {A B S} (g : A -> list B) (l : list A)
    (body : B -> S -> result S) s :
  for_each (flat_map g l) body s =
    for_each l (fun x s => for_each (g x) body s) s.
Proof.
  revert s. induction l as [|x l IH]; intros s; cbn; [reflexivity|].
  rewrite for_each_app.
  destruct (for_each (g x) body s) as [s'|e]; cbn [bind];
    [apply IH | reflexivity].
Qed.

Lemma In_range lo hi x : In x (range lo hi) <-> lo <= x < hi.
Proof.
  unfold range. rewrite in_map_iff. split.
  - intros (i & <- & Hi). apply in_seq in Hi. lia.
  - intros Hx. exists (Z.to_nat (x - lo)). split; [lia|].
    apply in_seq. lia.
Qed.

Lemma modular_inverse_defined k m :
  m <> 0 -> exists o, modular_inverse k m = Ok o.
Proof.
  intros Hm. unfold modular_inverse, py_mod.
  destruct (extended_gcd k m) as [[g x] y]. cbn [fst].
  destruct (negb (g =? 1)); [eauto|].
  destruct (Z.eqb_spec m 0); [contradiction|]. cbn. eauto.
Qed.

Section SearchFacts.
Variable U : UnicodeData.
Variable word_bank : gset str.
Variable m : Z.
Variable ciphertext : str.


Lemma try_key_step shift k d :
  m <> 0 ->
  try_key U word_bank m ciphertext shift k d =
    if has_inverse k m then search_step U word_bank m ciphertext (shift, k) d else Ok d.
Proof.
  intros Hm. unfold try_key, has_inverse, search_step, candidate.
  destruct (modular_inverse_defined k m Hm) as [o ->]. cbn [bind fst snd].
  destruct o; [|reflexivity].
  destruct (decrypt U m ciphertext shift k); reflexivity.
Qed.

Lemma inner_loop shift l d :
  m <> 0 ->
  for_each l (try_key U word_bank m ciphertext shift) d =
    for_each (map (pair shift) (List.filter (fun k => has_inverse k m) l))
             (search_step U word_bank m ciphertext) d.
Proof.
  intros Hm. revert d. induction l as [|k l IH]; intros d; [reflexivity|].
  cbn [for_each List.filter]. rewrite (try_key_step shift k d Hm).
  destruct (has_inverse k m); cbn [map for_each bind].
  - destruct (search_step U word_bank m ciphertext (shift, k) d); cbn [bind]; [apply IH | reflexivity].
  - apply IH.
Qed.

Lemma loops_key_space d :
  for_each (range 0 m)
    (fun shift d =>
       for_each (range 1 m) (try_key U word_bank m ciphertext shift) d) d =
  for_each (key_space m) (search_step U word_bank m ciphertext) d.
Proof.
  destruct (Z.eq_dec m 0) as [->|Hm]; [reflexivity|].
  unfold key_space. rewrite for_each_flat_map.
  apply for_each_ext. intros shift s _. apply inner_loop, Hm.
Qed.

Lemma for_each_step keys d :
  for_each keys (search_step U word_bank m ciphertext) d =
    let* cands := map_result (candidate U word_bank m ciphertext) keys in
    Ok (fold_left insert_candidate cands d).
Proof.
  revert d. induction keys as [|key keys IH]; intros d; cbn; [reflexivity|].
  unfold search_step at 1.
  destruct (candidate U word_bank m ciphertext key) as [cand|e];
    cbn [bind]; [|reflexivity].
  rewrite IH.
  destruct (map_result (candidate U word_bank m ciphertext) keys);
    reflexivity.
Qed.

Lemma candidates_scored keys cands :
  map_result (candidate U word_bank m ciphertext) keys = Ok cands ->
  cands = map (fun p => (p, calculate_score U word_bank p)) (map fst cands).
Proof.
  revert cands. induction keys as [|key keys IH]; intros cands; cbn.
  - intros [= <-]. reflexivity.
  - unfold candidate at 1.
    destruct (decrypt U m ciphertext (fst key) (snd key)) as [p|e];
      cbn [bind]; [|discriminate].
    destruct (map_result (candidate U word_bank m ciphertext) keys)
      as [cs|e]; cbn [bind]; [|discriminate].
    intros [= <-]. cbn. f_equal. apply IH. reflexivity.
Qed.

Lemma candidates_length keys cands :
  map_result (candidate U word_bank m ciphertext) keys = Ok cands ->
  length cands = length keys.
Proof.
  revert cands. induction keys as [|key keys IH]; intros cands; cbn.
  - intros [= <-]. reflexivity.
  - destruct (candidate U word_bank m ciphertext key); cbn [bind];
      [|discriminate].
    destruct (map_result (candidate U word_bank m ciphertext) keys)
      as [cs|e]; cbn [bind]; [|discriminate].
    intros [= <-]. cbn. f_equal. apply IH. reflexivity.
Qed.
End SearchFacts.

(** ** The dictionary keeps first occurrences *)

Section Scored.
Variable f : str -> Z.

Lemma dict_set_scored kept p :
  dict_set (scored f kept) p (f p) = scored f (keep kept p).
Proof.
  unfold keep, scored. induction kept as [|a kept IH]; cbn; [reflexivity|].
  destruct (decide (a = p)) as [->|Hne].
  - rewrite bool_decide_eq_true_2 by (left). reflexivity.
  - rewrite IH.
    destruct (bool_decide_reflect (p ∈ kept)) as [Hin|Hin].
    + rewrite bool_decide_eq_true_2 by (right; assumption). reflexivity.
    + rewrite bool_decide_eq_false_2; [reflexivity|].
      rewrite elem_of_cons. intros [->|?]; [congruence | contradiction].
Qed.

Lemma fold_insert_scored ps kept :
  fold_left insert_candidate (scored f ps) (scored f kept) =
    scored f (fold_left keep ps kept).
Proof.
  revert kept. induction ps as [|p ps IH]; intros kept; cbn; [reflexivity|].
  change (insert_candidate (scored f kept) (p, f p))
    with (dict_set (scored f kept) p (f p)).
  rewrite dict_set_scored. apply IH.
Qed.

Lemma maximal_scored mx l :
  maximal mx (scored f l) = List.filter (fun p => f p =? mx) l.
Proof.
  unfold maximal, scored. induction l as [|p l IH]; cbn; [reflexivity|].
  destruct (f p =? mx); cbn; rewrite IH; reflexivity.
Qed.
End Scored.

Lemma elem_of_fold_keep ps kept x :
  x ∈ fold_left keep ps kept <-> x ∈ kept \/ x ∈ ps.
Proof.
  revert kept. induction ps as [|p ps IH]; intros kept; cbn.
  - rewrite elem_of_nil. tauto.
  - rewrite IH, elem_of_cons. unfold keep.
    destruct (bool_decide_reflect (p ∈ kept)) as [Hin|Hin].
    + split; [tauto|]. intros [?|[->|?]]; tauto.
    + rewrite elem_of_app, list_elem_of_singleton. tauto.
Qed.

Lemma NoDup_fold_keep ps kept :
  NoDup kept -> NoDup (fold_left keep ps kept).
Proof.
  revert kept. induction ps as [|p ps IH]; intros kept Hk; cbn; [assumption|].
  apply IH. unfold keep.
  destruct (bool_decide_reflect (p ∈ kept)) as [Hin|Hin]; [assumption|].
  apply NoDup_app. split; [assumption|]. split; [|apply NoDup_singleton].
  intros x Hx ->%list_elem_of_singleton. contradiction.
Qed.

Lemma elem_of_first_occurrences l x : x ∈ first_occurrences l <-> x ∈ l.
Proof.
  unfold first_occurrences. rewrite elem_of_fold_keep, elem_of_nil. tauto.
Qed.

Lemma NoDup_first_occurrences l : NoDup (first_occurrences l).
Proof. apply NoDup_fold_keep. constructor. Qed.

Lemma elem_of_filter_bool {A} (P : A -> bool) (l : list A) x :
  x ∈ List.filter P l <-> x ∈ l /\ P x = true.
Proof. rewrite !list_elem_of_In. apply filter_In. Qed.

(** Keeping first occurrences commutes with filtering. *)
Lemma fold_keep_filter (P : str -> bool) ps kept :
  fold_left keep (List.filter P ps) (List.filter P kept) =
    List.filter P (fold_left keep ps kept).
Proof.
  revert kept. induction ps as [|p ps IH]; intros kept; cbn; [reflexivity|].
  destruct (P p) eqn:Hp; cbn [fold_left].
  - rewrite <- IH. f_equal. unfold keep.
    destruct (bool_decide_reflect (p ∈ kept)) as [Hin|Hin].
    + rewrite bool_decide_eq_true_2; [reflexivity|].
      apply elem_of_filter_bool. auto.
    + rewrite bool_decide_eq_false_2.
      * rewrite List.filter_app. cbn. rewrite Hp. reflexivity.
      * rewrite elem_of_filter_bool. tauto.
  - rewrite <- IH. f_equal. unfold keep.
    destruct (bool_decide (p ∈ kept)); [reflexivity|].
    rewrite List.filter_app. cbn. rewrite Hp, app_nil_r. reflexivity.
Qed.

Lemma first_occurrences_filter (P : str -> bool) l :
  first_occurrences (List.filter P l) = List.filter P (first_occurrences l).
Proof. apply (fold_keep_filter P l []). Qed.

(** ** [max] *)

Lemma fold_max_spec vs v :
  In (fold_left Z.max vs v) (v :: vs) /\
  forall x, In x (v :: vs) -> x <= fold_left Z.max vs v.
Proof.
  revert v. induction vs as [|w vs IH]; intros v; cbn [fold_left].
  - split; [left; reflexivity|]. intros x [->|[]]. lia.
  - destruct (IH (Z.max v w)) as [Hin Hle]. split.
    + destruct Hin as [Hin|Hin]; [|right; right; assumption].
      rewrite <- Hin. destruct (Z.max_spec v w) as [[_ ->]|[_ ->]]; cbn; auto.
    + intros x Hx.
      assert (Z.max v w <= fold_left Z.max vs (Z.max v w))
        by (apply Hle; left; reflexivity).
      destruct Hx as [->|[->|Hx]]; [lia | lia |].
      apply Hle. right. assumption.
Qed.

Lemma py_max_same l1 l2 :
  (forall x, In x l1 <-> In x l2) -> py_max l1 = py_max l2.
Proof.
  intros H. destruct l1 as [|v1 l1], l2 as [|v2 l2]; cbn [py_max].
  - reflexivity.
  - exfalso. apply (H v2). left. reflexivity.
  - exfalso. apply (H v1). left. reflexivity.
  - f_equal.
    destruct (fold_max_spec l1 v1) as [Hin1 Hle1].
    destruct (fold_max_spec l2 v2) as [Hin2 Hle2].
    apply H in Hin1 as Hin1'. apply H in Hin2 as Hin2'.
    apply Hle2 in Hin1'. apply Hle1 in Hin2'. lia.
Qed.

Lemma best_plaintext_maximal mx (d : list (str * Z)) best :
  fold_left (fun best kv => if snd kv =? mx then best ++ [fst kv] else best)
            d best =
    best ++ maximal mx d.
Proof.
  unfold maximal. revert best.
  induction d as [|kv d IH]; intros best; cbn.
  - rewrite app_nil_r. reflexivity.
  - rewrite IH. destruct (snd kv =? mx); cbn; [|reflexivity].
    rewrite <- app_assoc. reflexivity.
Qed.

(** ** [find_possible_plaintext] returns the distinct maximal candidates *)

Lemma find_possible_plaintext_eq (U : UnicodeData) (word_bank : gset str)
    (m : Z) (ciphertext : str) :
  find_possible_plaintext U word_bank m ciphertext =
    distinct_maximal U word_bank m ciphertext.
Proof.
  unfold find_possible_plaintext, distinct_maximal, candidates.
  rewrite loops_key_space, for_each_step.
  destruct (map_result (candidate U word_bank m ciphertext) (key_space m))
    as [cands|e] eqn:Hcands; cbn [bind]; [|reflexivity].
  apply candidates_scored in Hcands.
  set (f := calculate_score U word_bank) in *.
  set (ps := map fst cands) in *.
  change (map (fun p => (p, f p)) ps) with (scored f ps) in Hcands.
  rewrite Hcands.
  change (fold_left insert_candidate (scored f ps) [])
    with (fold_left insert_candidate (scored f ps) (scored f [])).
  rewrite fold_insert_scored.
  change (fold_left keep ps []) with (first_occurrences ps).
  assert (py_max (dict_values (scored f (first_occurrences ps))) =
          py_max (map snd (scored f ps))) as ->.
  { apply py_max_same. intros x. unfold dict_values, scored.
    rewrite !map_map. cbn [snd]. rewrite !in_map_iff.
    split; intros (p & <- & Hp); exists p; split; try reflexivity.
    - apply list_elem_of_In, elem_of_first_occurrences, list_elem_of_In.
      assumption.
    - apply list_elem_of_In, elem_of_first_occurrences, list_elem_of_In.
      assumption. }
  destruct (py_max (map snd (scored f ps))) as [mx|e]; cbn [bind];
    [|reflexivity].
  rewrite best_plaintext_maximal. cbn [app].
  rewrite !maximal_scored, first_occurrences_filter. reflexivity.
Qed.

Lemma elem_of_maximal mx (cands : list (str * Z)) p :
  p ∈ maximal mx cands <-> (p, mx) ∈ cands.
Proof.
  unfold maximal. rewrite !list_elem_of_In, in_map_iff. split.
  - intros ([q sc] & <- & Hin). apply filter_In in Hin. cbn in *.
    destruct Hin as [Hin Hsc]. apply Z.eqb_eq in Hsc. subst. assumption.
  - intros Hin. exists (p, mx). split; [reflexivity|].
    apply filter_In. split; [assumption|]. cbn. apply Z.eqb_refl.
Qed.

(** C4, as amended: [find_possible_plaintext] returns the plaintexts of the
    candidates of maximal score over the enumerated keys, each distinct
    plaintext once, in the order in which the keys first produce them.  The
    result has no repetition and holds exactly the plaintexts of maximal
    score, so two distinct plaintexts that tie for the maximum are both in
    it. *)
Theorem find_possible_plaintext_distinct_maximal (U : UnicodeData)
    (word_bank : gset str) (m : Z) (ciphertext : str) :
  find_possible_plaintext U word_bank m ciphertext =
    distinct_maximal U word_bank m ciphertext /\
  forall cands max_score best,
    candidates U word_bank m ciphertext = Ok cands ->
    py_max (map snd cands) = Ok max_score ->
    find_possible_plaintext U word_bank m ciphertext = Ok best ->
    best = first_occurrences (maximal max_score cands) /\
    NoDup best /\
    forall p, p ∈ best <-> (p, max_score) ∈ cands.
Proof.
  split; [apply find_possible_plaintext_eq|].
  intros cands mx best Hcands Hmax Hbest.
  rewrite find_possible_plaintext_eq in Hbest. unfold distinct_maximal in Hbest.
  rewrite Hcands in Hbest. cbn [bind] in Hbest.
  rewrite Hmax in Hbest. cbn [bind] in Hbest.
  injection Hbest as <-. split; [reflexivity|]. split.
  - apply NoDup_first_occurrences.
  - intros p. rewrite elem_of_first_occurrences. apply elem_of_maximal.
Qed.

Lemma find_possible_plaintext_distinct_maximal_witness :
  let cands := [(py "a", 1); (py "a", 1); (py "c", 0);
                (py "b", 0); (py "b", 0); (py "c", 0)] in
  [py "a"] = first_occurrences (maximal 1 cands) /\
  NoDup [py "a"] /\
  forall p, p ∈ [py "a"] <-> (p, 1) ∈ cands.
Proof.
  intros cands.
  apply (proj2 (find_possible_plaintext_distinct_maximal
                  ascii_only {[ py "a" ]} 3 (py "a")));
    reflexivity.
Defined.

(** C4 as stated fails: with the alphabet size 3 and the ciphertext "a", the
    six keys give the plaintexts a, a, c, b, b, c, all of score 0; the claim
    lists the six, [find_possible_plaintext] returns the three distinct
    ones. *)
Lemma find_possible_plaintext_collapses_duplicates :
  key_space 3 = [(0, 1); (0, 2); (1, 1); (1, 2); (2, 1); (2, 2)] /\
  forall U,
    all_maximal U ∅ 3 (py "a") =
      Ok [py "a"; py "a"; py "c"; py "b"; py "b"; py "c"] /\
    find_possible_plaintext U ∅ 3 (py "a") = Ok [py "a"; py "c"; py "b"].
Proof.
  split; [reflexivity|]. intros U. vm_compute. auto.
Qed.

(** ** The key space is empty only for degenerate alphabets *)

Lemma has_inverse_coprime k m :
  2 <= m -> 1 <= k < m -> has_inverse k m = true <-> Z.gcd k m = 1.
Proof.
  intros Hm Hk. unfold has_inverse. split.
  - intros H. destruct (Z.eq_dec (Z.gcd k m) 1) as [|Hg]; [assumption|].
    rewrite (modular_inverse_not_coprime k m) in H by (lia || assumption).
    discriminate.
  - intros Hg.
    destruct (modular_inverse_coprime k m) as (x & -> & _);
      [lia | lia | assumption | reflexivity].
Qed.

Lemma key_space_valid m shift k :
  2 <= m -> In (shift, k) (key_space m) <-> valid_key m shift k.
Proof.
  intros Hm. unfold key_space, valid_key. rewrite in_flat_map. split.
  - intros (s & Hs & Hin). apply in_map_iff in Hin.
    destruct Hin as (k' & [= -> ->] & Hk). apply filter_In in Hk.
    destruct Hk as [Hk Hinv]. apply In_range in Hs, Hk.
    apply has_inverse_coprime in Hinv; [|lia..]. auto.
  - intros (Hs & Hk & Hg). exists shift. split; [apply In_range; lia|].
    apply in_map, filter_In. split; [apply In_range; lia|].
    apply has_inverse_coprime; assumption.
Qed.

Lemma key_space_degenerate m : m <= 1 -> key_space m = [].
Proof.
  intros Hm. unfold key_space.
  replace (range 1 m) with (@nil Z)
    by (unfold range; replace (Z.to_nat (m - 1)) with 0%nat by lia;
        reflexivity).
  cbn. induction (range 0 m) as [|s l IH]; [reflexivity | exact IH].
Qed.

Lemma decrypt_char_not_max U m shift k c :
  decrypt_char U m shift k c <> Raise ValueError_max.
Proof.
  unfold decrypt_char. destruct (isalpha U c); [|discriminate].
  destruct (ord (lower U c)) as [o|e] eqn:Ho; cbn [bind].
  - destruct (modular_inverse k m) as [inv|e] eqn:Hinv; cbn [bind].
    + destruct inv as [inv|]; cbn [py_mul bind]; [|discriminate].
      unfold py_mod, chr. destruct (m =? 0); cbn [bind]; [discriminate|].
      match goal with |- context [if ?b then Ok _ else _] => destruct b end;
        cbn [bind]; discriminate.
    + apply modular_inverse_raise in Hinv. subst. discriminate.
  - unfold ord in Ho. destruct (lower U c) as [|? [|? ?]]; congruence.
Qed.

Lemma decrypt_not_max U m s shift k :
  decrypt U m s shift k <> Raise ValueError_max.
Proof.
  unfold decrypt. generalize (@nil Z) as acc.
  induction s as [|c s IH]; intros acc; cbn; [discriminate|].
  pose proof (decrypt_char_not_max U m shift k c) as Hc.
  destruct (decrypt_char U m shift k c) as [t|e]; cbn [bind];
    [apply IH | congruence].
Qed.

Lemma map_result_raise {A B} (f : A -> result B) l e :
  map_result f l = Raise e -> exists x, In x l /\ f x = Raise e.
Proof.
  induction l as [|x l IH]; cbn; [discriminate|].
  destruct (f x) as [y|e'] eqn:Hx; cbn [bind].
  - destruct (map_result f l) as [ys|e'']; cbn [bind]; [discriminate|].
    intros [= <-]. destruct IH as (z & Hz & Hfz); [reflexivity|].
    exists z. auto.
  - intros [= <-]. exists x. auto.
Qed.

Lemma map_result_ok {A B} (f : A -> result B) (l : list A) :
  (forall x, In x l -> exists y, f x = Ok y) ->
  exists ys, map_result f l = Ok ys.
Proof.
  induction l as [|x l IH]; intros H; cbn; [eauto|].
  destruct (H x) as [y ->]; [left; reflexivity|].
  destruct IH as [ys ->]; [intros z Hz; apply H; right; assumption|].
  cbn. eauto.
Qed.

(** On ASCII ciphertext and an alphabet of 2 to 26 letters the search returns
    at least one plaintext. *)
Lemma find_possible_plaintext_returns (U : UnicodeData) (word_bank : gset str)
    (m : Z) (ciphertext : str) :
  2 <= m <= 26 -> ascii_text ciphertext ->
  exists best,
    find_possible_plaintext U word_bank m ciphertext = Ok best /\ best <> [].
Proof.
  intros Hm Hs. rewrite find_possible_plaintext_eq.
  unfold distinct_maximal, candidates.
  destruct (map_result_ok (candidate U word_bank m ciphertext) (key_space m))
    as [cands Hcands].
  { intros [shift k] Hkey. apply key_space_valid in Hkey; [|lia].
    destruct (valid_key_inverse m shift k Hkey) as (inv & Hinv & _).
    unfold candidate. cbn [fst snd].
    rewrite (decrypt_ascii U m shift k inv) by (auto; lia). cbn. eauto. }
  rewrite Hcands. cbn [bind].
  pose proof (candidates_length U word_bank m ciphertext _ _ Hcands) as Hlen.
  assert (In (0, 1) (key_space m)) as Hin.
  { apply key_space_valid; [lia|]. unfold valid_key. rewrite Z.gcd_1_l. lia. }
  destruct cands as [|[p sc] cands];
    [destruct (key_space m); [contradiction | discriminate]|].
  cbn [map snd py_max bind].
  destruct (fold_max_spec (map snd cands) sc) as [Hmax _].
  set (mx := fold_left Z.max (map snd cands) sc) in *.
  change (sc :: map snd cands) with (map snd ((p, sc) :: cands)) in Hmax.
  apply in_map_iff in Hmax. destruct Hmax as ([q sc'] & Hsc & Hq).
  cbn in Hsc. subst sc'.
  eexists. split; [reflexivity|].
  intros Hnil.
  assert (q ∈ first_occurrences (maximal mx ((p, sc) :: cands))) as Hbest.
  { apply elem_of_first_occurrences, elem_of_maximal, list_elem_of_In, Hq. }
  rewrite Hnil in Hbest. apply elem_of_nil in Hbest. exact Hbest.
Qed.

(** The result for a degenerate alphabet size and for the others. *)
Lemma empty_key_space_result (U : UnicodeData) (word_bank : gset str) (m : Z)
    (ciphertext : str) :
  (m <= 1 ->
   key_space m = [] /\
   find_possible_plaintext U word_bank m ciphertext = Raise ValueError_max) /\
  (2 <= m ->
   valid_key m 0 1 /\ In (0, 1) (key_space m) /\
   find_possible_plaintext U word_bank m ciphertext <> Raise ValueError_max).
Proof.
  split.
  - intros Hm. split; [apply key_space_degenerate, Hm|].
    rewrite find_possible_plaintext_eq. unfold distinct_maximal, candidates.
    rewrite (key_space_degenerate m Hm). reflexivity.
  - intros Hm.
    assert (valid_key m 0 1) as Hkey.
    { unfold valid_key. rewrite Z.gcd_1_l. lia. }
    split; [assumption|].
    assert (In (0, 1) (key_space m)) as Hin by (apply key_space_valid; auto).
    split; [assumption|].
    rewrite find_possible_plaintext_eq. unfold distinct_maximal, candidates.
    destruct (map_result (candidate U word_bank m ciphertext) (key_space m))
      as [cands|e] eqn:Hcands; cbn [bind].
    + apply candidates_length in Hcands.
      destruct cands as [|cand cands]; [|discriminate].
      destruct (key_space m); [contradiction | discriminate].
    + apply map_result_raise in Hcands. destruct Hcands as (key & _ & Hraise).
      unfold candidate in Hraise.
      pose proof (decrypt_not_max U m ciphertext (fst key) (snd key)) as Hd.
      destruct (decrypt U m ciphertext (fst key) (snd key)); cbn [bind] in *;
        congruence.
Qed.

(** ** The scenarios of the specification *)

Example the_cat_sat U :
  encrypt U 26 (py "the cat sat") 3 5 = Ok (py "umx ndu pdu") /\
  find_possible_plaintext U {[ py "the"; py "cat"; py "sat" ]} 26
    (py "umx ndu pdu") = Ok [py "the cat sat"] /\
  calculate_score U {[ py "the"; py "cat"; py "sat" ]} (py "the cat sat") = 3.
Proof. vm_compute. auto. Qed.

Example no_letters U :
  find_possible_plaintext U {[ py "the" ]} 26 (py "1234 !!!")
    = Ok [py "1234 !!!"].
Proof. vm_compute. reflexivity. Qed.

Example alphabet_of_two : key_space 2 = [(0, 1); (1, 1)].
Proof. reflexivity. Qed.

Example tie U :
  find_possible_plaintext U {[ py "at"; py "if" ]} 26 (py "ib")
    = Ok [py "at"; py "if"].
Proof. vm_compute. reflexivity. Qed.

(** ** [extended_gcd] and [modular_inverse] on all integers *)

Lemma extended_gcd_sign a b :
  (a = 0 -> fst (fst (extended_gcd a b)) = b) /\
  (0 < a -> fst (fst (extended_gcd a b)) = Z.gcd a b) /\
  (a < 0 -> fst (fst (extended_gcd a b)) = - Z.gcd a b).
Proof.
  funelim (extended_gcd a b).
  - subst. cbn [fst]. split; [reflexivity|]. split; intros; lia.
  - rewrite <- (Z.gcd_mod b a) by assumption.
    destruct (extended_gcd (b mod a) a) as [[g x1] y1]. cbn [fst] in *.
    match goal with IH : _ /\ _ /\ _ |- _ => destruct IH as (H0 & Hpos & Hneg) end.
    split; [intros; contradiction|]. split; intros Ha.
    + pose proof (Z.mod_pos_bound b a Ha).
      destruct (Z.eq_dec (b mod a) 0) as [E|E].
      * rewrite (H0 E), E, Z.gcd_0_l. lia.
      * apply Hpos. lia.
    + pose proof (Z.mod_neg_bound b a Ha).
      destruct (Z.eq_dec (b mod a) 0) as [E|E].
      * rewrite (H0 E), E, Z.gcd_0_l. lia.
      * apply Hneg. lia.
Qed.

(** X1: for all integers [a] and [b], of any sign, [extended_gcd a b]
    returns [(g, x, y)] with [a*x + b*y = g] and [|g| = gcd(a, b)]; [g] is
    the gcd itself when [a] is positive and its opposite when [a] is
    negative. *)
Theorem extended_gcd_any_sign a b :
  exists g x y,
    extended_gcd a b = (g, x, y) /\
    a * x + b * y = g /\
    Z.abs g = Z.gcd a b /\
    (0 < a -> g = Z.gcd a b) /\
    (a < 0 -> g = - Z.gcd a b).
Proof.
  pose proof (extended_gcd_bezout a b) as Hbez.
  destruct (extended_gcd_sign a b) as (H0 & Hpos & Hneg).
  destruct (extended_gcd a b) as [[g x] y]. cbn [fst] in *.
  exists g, x, y. split; [reflexivity|]. split; [assumption|].
  split; [|auto].
  pose proof (Z.gcd_nonneg a b).
  destruct (Z.lt_trichotomy a 0) as [Ha|[Ha|Ha]].
  - rewrite (Hneg Ha). lia.
  - clear Hbez. subst a. specialize (H0 eq_refl). subst g.
    symmetry. apply Z.gcd_0_l.
  - rewrite (Hpos Ha). lia.
Qed.

(** X2: a negative first argument never has an inverse for
    [modular_inverse], coprime with the modulus or not: the result is
    [None]. *)
Theorem modular_inverse_negative a m :
  a < 0 -> modular_inverse a m = Ok None.
Proof.
  intros Ha. unfold modular_inverse.
  destruct (extended_gcd_sign a m) as (_ & _ & Hneg).
  rewrite (Hneg Ha). pose proof (Z.gcd_nonneg a m).
  destruct (Z.eqb_spec (- Z.gcd a m) 1); [lia | reflexivity].
Qed.

Lemma modular_inverse_negative_witness :
  Z.gcd (-1) 5 = 1 /\ modular_inverse (-1) 5 = Ok None.
Proof.
  split; [reflexivity | apply (modular_inverse_negative (-1) 5); lia].
Defined.

(** X3: [modular_inverse] raises in one case only: the modulus 0 with the
    argument 1, where [x % m] divides by zero. *)
Theorem modular_inverse_raises_iff a m e :
  modular_inverse a m = Raise e <->
  m = 0 /\ a = 1 /\ e = ZeroDivisionError.
Proof.
  split.
  - intros H. pose proof (modular_inverse_raise a m e H) as ->.
    destruct (Z.eq_dec m 0) as [->|Hm].
    + split; [reflexivity|]. split; [|reflexivity].
      unfold modular_inverse in H.
      destruct (extended_gcd_sign a 0) as (H0 & Hpos & Hneg).
      destruct (Z.eqb_spec (fst (fst (extended_gcd a 0))) 1) as [Hg|Hg];
        [|discriminate].
      pose proof (Z.gcd_nonneg a 0). rewrite Z.gcd_0_r in *.
      destruct (Z.lt_trichotomy a 0) as [Ha|[Ha|Ha]].
      * rewrite (Hneg Ha) in Hg. lia.
      * rewrite (H0 Ha) in Hg. lia.
      * rewrite (Hpos Ha) in Hg. lia.
    + destruct (modular_inverse_defined a m Hm) as [o Ho]. congruence.
  - intros (-> & -> & ->). reflexivity.
Qed.

Lemma inverse_unique m a x y :
  0 < m -> 0 <= x < m -> 0 <= y < m ->
  (a * x) mod m = 1 mod m -> (a * y) mod m = 1 mod m -> x = y.
Proof.
  intros Hm Hx Hy Hax Hay.
  apply (mod_eq_divide m Hm) in Hax, Hay.
  assert (m | x - y) as Hd.
  { replace (x - y) with (y * (a * x - 1) - x * (a * y - 1)) by ring.
    apply Z.divide_sub_r; apply Z.divide_mul_r; assumption. }
  apply (divide_small m Hm) in Hd; lia.
Qed.

Lemma inverse_coprime m a x :
  0 < m -> (a * x) mod m = 1 mod m -> Z.gcd x m = 1.
Proof.
  intros Hm Hax. apply (mod_eq_divide m Hm) in Hax. destruct Hax as [q Hq].
  apply Z.divide_1_r_nonneg; [apply Z.gcd_nonneg|].
  replace 1 with (a * x - q * m) by lia.
  apply Z.divide_sub_r; apply Z.divide_mul_r.
  - apply Z.gcd_divide_l.
  - apply Z.gcd_divide_r.
Qed.

(** X4: taking the inverse twice gives the number back: for [m >= 2] and
    [a] in [[1, m)], if [modular_inverse a m] is [x] then
    [modular_inverse x m] is [a]. *)
Theorem modular_inverse_involutive a m x :
  2 <= m -> 1 <= a < m ->
  modular_inverse a m = Ok (Some x) -> modular_inverse x m = Ok (Some a).
Proof.
  intros Hm Ha Hx.
  assert (Z.gcd a m = 1) as Hg.
  { destruct (Z.eq_dec (Z.gcd a m) 1) as [|Hg]; [assumption|].
    rewrite (modular_inverse_not_coprime a m) in Hx by (lia || assumption).
    discriminate. }
  destruct (modular_inverse_coprime a m) as (x' & Hx' & Hr & Hax);
    [lia | lia | assumption |].
  assert (x' = x) as -> by congruence.
  pose proof (inverse_coprime m a x ltac:(lia) Hax) as Hgx.
  destruct (modular_inverse_coprime x m) as (y & Hy & Hry & Hxy);
    [lia | lia | assumption |].
  rewrite Hy. do 2 f_equal.
  apply (inverse_unique m x y a ltac:(lia) Hry ltac:(lia) Hxy).
  rewrite Z.mul_comm. exact Hax.
Qed.

Lemma modular_inverse_involutive_witness :
  modular_inverse 21 26 = Ok (Some 5).
Proof.
  apply (modular_inverse_involutive 5 26 21); [lia | lia | reflexivity].
Defined.

Lemma modular_inverse_mod a m :
  0 <= a -> 1 <= m -> modular_inverse (a mod m) m = modular_inverse a m.
Proof.
  intros Ha Hm. pose proof (Z.mod_pos_bound a m ltac:(lia)) as Hr.
  assert (Z.gcd (a mod m) m = Z.gcd a m) as Hgcd
    by (rewrite Z.gcd_mod by lia; apply Z.gcd_comm).
  destruct (Z.eq_dec (Z.gcd a m) 1) as [Hg|Hg].
  - destruct (modular_inverse_coprime a m) as (x & -> & Hx & Hax);
      [lia | lia | assumption |].
    destruct (modular_inverse_coprime (a mod m) m) as (y & -> & Hy & Hay);
      [lia | lia | congruence |].
    do 2 f_equal.
    apply (inverse_unique m a y x ltac:(lia) Hy Hx); [|exact Hax].
    rewrite <- Hay. rewrite Z.mul_mod_idemp_l by lia. reflexivity.
  - rewrite !modular_inverse_not_coprime; try lia; congruence.
Qed.

(** X5: the inverse depends on the argument modulo [m] only: for [a >= 0]
    and [m >= 1], [modular_inverse (a + m) m] is [modular_inverse a m]. *)
Theorem modular_inverse_periodic a m :
  0 <= a -> 1 <= m -> modular_inverse (a + m) m = modular_inverse a m.
Proof.
  intros Ha Hm.
  rewrite <- (modular_inverse_mod (a + m) m), <- (modular_inverse_mod a m)
    by lia.
  f_equal. rewrite <- (Z.mul_1_l m) at 1. apply Z.mod_add. lia.
Qed.

Lemma modular_inverse_periodic_witness :
  modular_inverse (5 + 26) 26 = modular_inverse 5 26.
Proof. apply (modular_inverse_periodic 5 26); lia. Defined.

(** ** [decrypt]: composition, keys modulo the alphabet size, bijection *)

Lemma decrypt_loop_acc U m s shift k acc :
  decrypt_loop U m s shift k acc =
    let* p := decrypt_loop U m s shift k [] in Ok (acc ++ p).
Proof.
  revert acc. induction s as [|c s IH]; intros acc; cbn.
  - rewrite app_nil_r. reflexivity.
  - destruct (decrypt_char U m shift k c) as [t|e]; cbn [bind];
      [|reflexivity].
    rewrite (IH (acc ++ t)), (IH t).
    destruct (decrypt_loop U m s shift k []); cbn [bind]; [|reflexivity].
    rewrite app_assoc. reflexivity.
Qed.

Lemma decrypt_loop_app U m s1 s2 shift k acc :
  decrypt_loop U m (s1 ++ s2) shift k acc =
    let* p1 := decrypt_loop U m s1 shift k acc in
    decrypt_loop U m s2 shift k p1.
Proof.
  revert acc. induction s1 as [|c s1 IH]; intros acc; cbn; [reflexivity|].
  destruct (decrypt_char U m shift k c) as [t|e]; cbn [bind];
    [apply IH | reflexivity].
Qed.

(** X6: [decrypt] works character by character: the decryption of a
    concatenation is the concatenation of the decryptions, and the first
    exception met, in reading order, is the one raised. *)
Theorem decrypt_app U m s1 s2 shift k :
  decrypt U m (s1 ++ s2) shift k =
    let* p1 := decrypt U m s1 shift k in
    let* p2 := decrypt U m s2 shift k in
    Ok (p1 ++ p2).
Proof.
  unfold decrypt. rewrite decrypt_loop_app.
  destruct (decrypt_loop U m s1 shift k []) as [p1|e]; cbn [bind];
    [|reflexivity].
  apply decrypt_loop_acc.
Qed.

Lemma decrypt_loop_ext U m shift1 k1 shift2 k2 :
  (forall c, decrypt_char U m shift1 k1 c = decrypt_char U m shift2 k2 c) ->
  forall s acc,
    decrypt_loop U m s shift1 k1 acc = decrypt_loop U m s shift2 k2 acc.
Proof.
  intros H s. induction s as [|c s IH]; intros acc; cbn; [reflexivity|].
  rewrite H. destruct (decrypt_char U m shift2 k2 c); cbn [bind];
    [apply IH | reflexivity].
Qed.

Lemma decrypt_char_key_mod U m shift k c :
  0 <= k -> 1 <= m ->
  decrypt_char U m (shift + m) (k + m) c = decrypt_char U m shift k c.
Proof.
  intros Hk Hm. unfold decrypt_char.
  destruct (isalpha U c); [|reflexivity].
  destruct (ord (lower U c)) as [o|e]; cbn [bind]; [|reflexivity].
  rewrite <- (modular_inverse_mod (k + m) m), <- (modular_inverse_mod k m)
    by lia.
  replace ((k + m) mod m) with (k mod m)
    by (rewrite <- (Z.mul_1_l m) at 2; symmetry; apply Z.mod_add; lia).
  destruct (modular_inverse (k mod m) m) as [[i|]|e]; cbn [bind py_mul];
    try reflexivity.
  unfold py_mod. destruct (Z.eqb_spec m 0); [lia|]. cbn [bind].
  replace ((o - ord_a - (shift + m)) * i)
    with ((o - ord_a - shift) * i + (- i) * m) by ring.
  rewrite Z.mod_add by lia. reflexivity.
Qed.

(** X7: a key acts modulo the alphabet size: for a non-negative multiplier
    and a positive alphabet size, adding the alphabet size to the shift and
    to the multiplier does not change what [decrypt] returns or raises. *)
Theorem decrypt_key_periodic U m s shift k :
  0 <= k -> 1 <= m ->
  decrypt U m s (shift + m) (k + m) = decrypt U m s shift k.
Proof.
  intros Hk Hm. unfold decrypt. apply decrypt_loop_ext.
  intros c. apply decrypt_char_key_mod; assumption.
Qed.

Lemma decrypt_key_periodic_witness :
  decrypt ascii_only 26 (py "Umx ndu!") (3 + 26) (5 + 26) =
  decrypt ascii_only 26 (py "Umx ndu!") 3 5.
Proof.
  apply (decrypt_key_periodic ascii_only 26 (py "Umx ndu!") 3 5); lia.
Defined.

Lemma letter_index_range c :
  is_letter c = true -> 0 <= letter_index c < 26.
Proof.
  unfold is_letter, letter_index, ord_a. intros H.
  apply orb_true_iff in H. rewrite in_AZ_spec, in_az_spec in H.
  destruct (in_AZ c) eqn:E; [apply in_AZ_spec in E; lia|].
  assert (~ 65 <= c <= 90) by (rewrite <- in_AZ_spec; congruence). lia.
Qed.

Lemma plain_char_in_alphabet m shift inverse c :
  1 <= m <= 26 -> is_ascii c = true ->
  is_ascii (plain_char m shift inverse c) = true /\
  is_letter (plain_char m shift inverse c) = is_letter c /\
  (is_letter c = true ->
   letter_index (plain_char m shift inverse c) =
     ((letter_index c - shift) * inverse) mod m).
Proof.
  intros Hm Hc. unfold plain_char.
  destruct (is_letter c) eqn:Hl; [|auto; split; [assumption|]; split;
                                   [assumption | discriminate]].
  pose proof (Z.mod_pos_bound ((letter_index c - shift) * inverse) m
                ltac:(lia)) as Hr.
  set (r := ((letter_index c - shift) * inverse) mod m) in *.
  unfold ord_a. destruct (in_AZ c).
  - unfold is_ascii, is_letter, letter_index, ord_a.
    replace (in_AZ (r + 97 - 32)) with true by (unfold in_AZ; lia).
    split; [lia|]. split; [reflexivity|]. intros _. lia.
  - unfold is_ascii, is_letter, letter_index, ord_a.
    replace (in_AZ (r + 97)) with false by (unfold in_AZ; lia).
    replace (in_az (r + 97)) with true by (unfold in_az; lia).
    split; [lia|]. split; [reflexivity|]. intros _. lia.
Qed.

Lemma in_alphabet_forall m s :
  in_alphabet m s <->
  forall c, In c s ->
    is_ascii c = true /\ (is_letter c = true -> letter_index c < m).
Proof.
  unfold in_alphabet. rewrite forallb_forall.
  split; intros H c Hc; specialize (H c Hc).
  - apply andb_true_iff in H. destruct H as [Ha H]. split; [assumption|].
    intros Hl. rewrite Hl in H. cbn in H. lia.
  - destruct H as [Ha H]. rewrite Ha. cbn.
    destruct (is_letter c); cbn; [|reflexivity]. specialize (H eq_refl). lia.
Qed.

Lemma in_alphabet_ascii m s : in_alphabet m s -> ascii_text s.
Proof.
  rewrite in_alphabet_forall. intros H. unfold ascii_text.
  apply forallb_forall. intros c Hc. apply H, Hc.
Qed.

(** X8: for an alphabet size in [[2, 26]], a valid key and an ASCII
    ciphertext, the plaintext that [decrypt] returns is ASCII text whose
    letters are all among the first [m] letters of the alphabet. *)
Theorem decrypt_in_alphabet U m shift k s :
  2 <= m <= 26 -> valid_key m shift k -> ascii_text s ->
  exists p, decrypt U m s shift k = Ok p /\ in_alphabet m p.
Proof.
  intros Hm Hkey Hs.
  destruct (valid_key_inverse m shift k Hkey) as (inv & Hinv & _).
  exists (map (plain_char m shift inv) s). split.
  - apply decrypt_ascii; [assumption | lia | assumption].
  - apply in_alphabet_forall. intros d Hd.
    apply in_map_iff in Hd. destruct Hd as (c & <- & Hc).
    unfold ascii_text in Hs. rewrite forallb_forall in Hs.
    destruct (plain_char_in_alphabet m shift inv c ltac:(lia) (Hs c Hc))
      as (Ha & Hl & Hidx).
    split; [assumption|]. rewrite Hl. intros Hlc. rewrite (Hidx Hlc).
    apply Z.mod_pos_bound. lia.
Qed.

Lemma decrypt_in_alphabet_witness :
  exists p,
    decrypt ascii_only 5 (py "Zebra, 42 zebras") 3 2 = Ok p /\
    in_alphabet 5 p.
Proof.
  apply (decrypt_in_alphabet ascii_only 5 3 2 (py "Zebra, 42 zebras")).
  - lia.
  - unfold valid_key. split; [lia|]. split; [lia | reflexivity].
  - reflexivity.
Defined.

Lemma affine_roundtrip_back m x shift k inverse :
  0 < m -> 0 <= x < m -> (k * inverse) mod m = 1 mod m ->
  ((((x - shift) * inverse) mod m) * k + shift) mod m = x.
Proof.
  intros Hm Hx Hinv.
  rewrite <- (Z.mod_small x m) at 2 by lia.
  apply (mod_eq_divide m Hm). apply (mod_eq_divide m Hm) in Hinv.
  destruct Hinv as [q Hq].
  rewrite (Z.mod_eq ((x - shift) * inverse) m) by lia.
  set (d := (x - shift) * inverse / m).
  exists ((x - shift) * q - d * k).
  replace (((x - shift) * inverse - m * d) * k + shift - x)
    with ((x - shift) * (k * inverse - 1) - m * d * k) by ring.
  rewrite Hq. ring.
Qed.

Lemma cipher_plain_char m shift k inverse c :
  1 <= m <= 26 -> (k * inverse) mod m = 1 mod m ->
  is_ascii c = true -> (is_letter c = true -> letter_index c < m) ->
  cipher_char m shift k (plain_char m shift inverse c) = c.
Proof.
  intros Hm Hinv Hc Hidx.
  destruct (plain_char_in_alphabet m shift inverse c Hm Hc) as (_ & Hl & Hi).
  unfold cipher_char. rewrite Hl.
  destruct (is_letter c) eqn:Hlc; [|apply plain_char_other; assumption].
  rewrite (Hi eq_refl).
  pose proof (letter_index_range c Hlc) as Hrange.
  rewrite (affine_roundtrip_back m (letter_index c) shift k inverse)
    by (try assumption; specialize (Hidx eq_refl); lia).
  unfold plain_char. rewrite Hlc.
  pose proof (Z.mod_pos_bound ((letter_index c - shift) * inverse) m
                ltac:(lia)) as Hr.
  set (r := ((letter_index c - shift) * inverse) mod m) in *.
  unfold is_letter in Hlc. apply orb_true_iff in Hlc.
  rewrite in_AZ_spec, in_az_spec in Hlc.
  unfold letter_index, ord_a in *.
  destruct (in_AZ c) eqn:HAZ.
  - replace (in_AZ (r + 97 - 32)) with true by (unfold in_AZ; lia). lia.
  - replace (in_AZ (r + 97)) with false by (unfold in_AZ; lia). lia.
Qed.

(** X9: for an alphabet size in [[2, 26]] and a valid key, [decrypt] is
    one-to-one on the ASCII texts whose letters are among the first [m]
    letters: two such ciphertexts with the same plaintext are equal. *)
Theorem decrypt_injective U m shift k s1 s2 :
  2 <= m <= 26 -> valid_key m shift k ->
  in_alphabet m s1 -> in_alphabet m s2 ->
  decrypt U m s1 shift k = decrypt U m s2 shift k -> s1 = s2.
Proof.
  intros Hm Hkey H1 H2 Heq.
  destruct (valid_key_inverse m shift k Hkey) as (inv & Hinv & _ & Hone).
  rewrite !(decrypt_ascii U m shift k inv) in Heq
    by (try assumption; try lia; apply (in_alphabet_ascii m); assumption).
  injection Heq as Heq.
  apply (f_equal (map (cipher_char m shift k))) in Heq.
  rewrite !map_map in Heq.
  assert (forall s, in_alphabet m s ->
            map (fun c => cipher_char m shift k (plain_char m shift inv c)) s
            = s) as Hid.
  { intros s Hs. rewrite <- (map_id s) at 2. apply map_ext_in.
    intros c Hc.
    destruct (proj1 (in_alphabet_forall m s) Hs c Hc) as [Ha Hidx].
    apply cipher_plain_char; auto; lia. }
  rewrite (Hid s1 H1), (Hid s2 H2) in Heq. exact Heq.
Qed.

Lemma decrypt_injective_witness : py "Ab, c" = py "Ab, c".
Proof.
  apply (decrypt_injective ascii_only 26 3 5 (py "Ab, c") (py "Ab, c"));
    try reflexivity; [lia|].
  unfold valid_key. split; [lia|]. split; [lia | reflexivity].
Defined.

(** ** What [find_possible_plaintext] returns *)

Lemma map_result_In {A B} (f : A -> result B) l ys x :
  map_result f l = Ok ys -> In x l -> exists y, f x = Ok y /\ In y ys.
Proof.
  revert ys. induction l as [|a l IH]; intros ys H Hx; [contradiction|].
  cbn in H. destruct (f a) as [b|e] eqn:Ha; cbn [bind] in H; [|discriminate].
  destruct (map_result f l) as [bs|e]; cbn [bind] in H; [|discriminate].
  injection H as <-. destruct Hx as [->|Hx].
  - exists b. split; [assumption | left; reflexivity].
  - destruct (IH bs eq_refl Hx) as (y & Hy & Hin).
    exists y. split; [assumption | right; assumption].
Qed.

Lemma map_result_In_inv {A B} (f : A -> result B) l ys y :
  map_result f l = Ok ys -> In y ys -> exists x, In x l /\ f x = Ok y.
Proof.
  revert ys. induction l as [|a l IH]; intros ys H Hy; cbn in H.
  - injection H as <-. contradiction.
  - destruct (f a) as [b|e] eqn:Ha; cbn [bind] in H; [|discriminate].
    destruct (map_result f l) as [bs|e]; cbn [bind] in H; [|discriminate].
    injection H as <-. destruct Hy as [->|Hy].
    + exists a. split; [left; reflexivity | assumption].
    + destruct (IH bs eq_refl Hy) as (x & Hx & Hfx).
      exists x. split; [right; assumption | assumption].
Qed.

Lemma py_max_In l mx :
  py_max l = Ok mx -> In mx l /\ forall x, In x l -> x <= mx.
Proof.
  destruct l as [|v vs]; cbn; [discriminate|].
  intros [= <-]. apply fold_max_spec.
Qed.

(** The result, when there is one, taken apart. *)
Lemma find_possible_plaintext_inv (U : UnicodeData) (word_bank : gset str)
    (m : Z) (ciphertext : str) (best : list str) :
  find_possible_plaintext U word_bank m ciphertext = Ok best ->
  exists cands mx,
    candidates U word_bank m ciphertext = Ok cands /\
    py_max (map snd cands) = Ok mx /\
    best = first_occurrences (maximal mx cands).
Proof.
  rewrite find_possible_plaintext_eq. unfold distinct_maximal.
  destruct (candidates U word_bank m ciphertext) as [cands|e];
    cbn [bind]; [|discriminate].
  destruct (py_max (map snd cands)) as [mx|e] eqn:Hmax; cbn [bind];
    [|discriminate].
  intros [= <-]. exists cands, mx. auto.
Qed.

Lemma In_best (mx : Z) (cands : list (str * Z)) (p : str) :
  In p (first_occurrences (maximal mx cands)) <-> In (p, mx) cands.
Proof.
  rewrite <- !list_elem_of_In, elem_of_first_occurrences.
  apply elem_of_maximal.
Qed.

Lemma candidate_inv (U : UnicodeData) (word_bank : gset str) (m : Z)
    (ciphertext : str) (key : Z * Z) (p : str) (sc : Z) :
  candidate U word_bank m ciphertext key = Ok (p, sc) <->
  decrypt U m ciphertext (fst key) (snd key) = Ok p /\
  sc = calculate_score U word_bank p.
Proof.
  unfold candidate.
  destruct (decrypt U m ciphertext (fst key) (snd key)) as [q|e];
    cbn [bind].
  - split; [intros [= <- <-]; auto | intros ([= <-] & ->); reflexivity].
  - split; [discriminate | intros [? _]; discriminate].
Qed.

Lemma key_space_nonempty_ge_2 m key : In key (key_space m) -> 2 <= m.
Proof.
  intros H. destruct (Z.le_gt_cases 2 m) as [|Hm]; [assumption|].
  rewrite key_space_degenerate in H by lia. contradiction.
Qed.

Lemma find_possible_plaintext_some (U : UnicodeData)
    (word_bank : gset str) (m : Z) (ciphertext : str) (best : list str) :
  find_possible_plaintext U word_bank m ciphertext = Ok best -> best <> [].
Proof.
  intros H.
  destruct (find_possible_plaintext_inv U word_bank m ciphertext best H)
    as (cands & mx & _ & Hmax & ->).
  apply py_max_In in Hmax. destruct Hmax as [Hin _].
  apply in_map_iff in Hin. destruct Hin as ([p sc] & Hsc & Hin).
  cbn in Hsc. subst sc.
  apply In_best in Hin. intros E. rewrite E in Hin. contradiction.
Qed.

(** X10: whenever [find_possible_plaintext] returns, the list is not empty,
    and all the plaintexts in it have the same score. *)
Theorem find_possible_plaintext_nonempty (U : UnicodeData)
    (word_bank : gset str) (m : Z) (ciphertext : str) (best : list str) :
  find_possible_plaintext U word_bank m ciphertext = Ok best ->
  best <> [] /\
  forall p q,
    In p best -> In q best ->
    calculate_score U word_bank p = calculate_score U word_bank q.
Proof.
  intros H. split; [eapply find_possible_plaintext_some, H|].
  destruct (find_possible_plaintext_inv U word_bank m ciphertext best H)
    as (cands & mx & Hcands & _ & ->).
  assert (forall p, In p (first_occurrences (maximal mx cands)) ->
                    calculate_score U word_bank p = mx) as Hscore.
  { intros p Hp. apply In_best in Hp.
    destruct (map_result_In_inv _ _ _ _ Hcands Hp) as (key & _ & Hc).
    apply candidate_inv in Hc. destruct Hc as [_ ->]. reflexivity. }
  intros p q Hp Hq. rewrite (Hscore p Hp), (Hscore q Hq). reflexivity.
Qed.

Lemma find_possible_plaintext_nonempty_witness :
  [py "at"; py "if"] <> [] /\
  forall p q,
    In p [py "at"; py "if"] -> In q [py "at"; py "if"] ->
    calculate_score ascii_only {[ py "at"; py "if" ]} p =
    calculate_score ascii_only {[ py "at"; py "if" ]} q.
Proof.
  apply (find_possible_plaintext_nonempty
           ascii_only {[ py "at"; py "if" ]} 26 (py "ib")).
  vm_compute. reflexivity.
Defined.

(** X11: every plaintext that [find_possible_plaintext] returns is the
    decryption of the ciphertext under some valid key, and no valid key
    gives a plaintext of higher score. *)
Theorem find_possible_plaintext_optimal (U : UnicodeData)
    (word_bank : gset str) (m : Z) (ciphertext : str) (best : list str)
    (p : str) :
  find_possible_plaintext U word_bank m ciphertext = Ok best ->
  In p best ->
  (exists shift k,
     valid_key m shift k /\ decrypt U m ciphertext shift k = Ok p) /\
  (forall shift k q,
     valid_key m shift k -> decrypt U m ciphertext shift k = Ok q ->
     calculate_score U word_bank q <= calculate_score U word_bank p).
Proof.
  intros H Hp.
  destruct (find_possible_plaintext_inv U word_bank m ciphertext best H)
    as (cands & mx & Hcands & Hmax & ->).
  apply In_best in Hp. apply py_max_In in Hmax. destruct Hmax as [_ Hle].
  unfold candidates in Hcands.
  destruct (map_result_In_inv _ _ _ _ Hcands Hp) as ([shift k] & Hkey & Hc).
  apply candidate_inv in Hc. cbn [fst snd] in Hc. destruct Hc as [Hd ->].
  pose proof (key_space_nonempty_ge_2 m _ Hkey) as Hm.
  split.
  - exists shift, k. split; [apply key_space_valid; assumption | assumption].
  - intros shift' k' q Hvalid Hq.
    apply (key_space_valid m shift' k' Hm) in Hvalid.
    destruct (map_result_In _ _ _ _ Hcands Hvalid) as ([q' sc] & Hc & Hin).
    apply candidate_inv in Hc. cbn [fst snd] in Hc. destruct Hc as [Hd' ->].
    assert (q' = q) as -> by congruence.
    apply Hle. apply in_map_iff. exists (q, calculate_score U word_bank q).
    auto.
Qed.

Lemma find_possible_plaintext_optimal_witness :
  (exists shift k,
     valid_key 26 shift k /\
     decrypt ascii_only 26 (py "ib") shift k = Ok (py "if")) /\
  (forall shift k q,
     valid_key 26 shift k ->
     decrypt ascii_only 26 (py "ib") shift k = Ok q ->
     calculate_score ascii_only {[ py "at"; py "if" ]} q <=
     calculate_score ascii_only {[ py "at"; py "if" ]} (py "if")).
Proof.
  apply (find_possible_plaintext_optimal
           ascii_only {[ py "at"; py "if" ]} 26 (py "ib")
           [py "at"; py "if"] (py "if")).
  - vm_compute. reflexivity.
  - right. left. reflexivity.
Defined.

Lemma NoDup_constant (l : list str) (c : str) :
  NoDup l -> l <> [] -> (forall x, In x l -> x = c) -> l = [c].
Proof.
  intros Hnd Hne Hall. destruct l as [|x l]; [contradiction|].
  rewrite (Hall x) by (left; reflexivity). f_equal.
  destruct l as [|y l]; [reflexivity|]. exfalso.
  apply NoDup_cons in Hnd. destruct Hnd as [Hx _]. apply Hx.
  rewrite (Hall x) by (left; reflexivity).
  rewrite (Hall y) by (right; left; reflexivity). left.
Qed.

(** X12: on a ciphertext without alphabetic characters, whatever the
    Unicode database, every key gives back the ciphertext, and for an
    alphabet size of at least 2 [find_possible_plaintext] returns the
    ciphertext alone. *)
Theorem find_possible_plaintext_no_letters (U : UnicodeData)
    (word_bank : gset str) (m : Z) (ciphertext : str) :
  2 <= m -> existsb (isalpha U) ciphertext = false ->
  find_possible_plaintext U word_bank m ciphertext = Ok [ciphertext].
Proof.
  intros Hm Hnone.
  destruct (map_result_ok (candidate U word_bank m ciphertext) (key_space m))
    as [cands Hcands].
  { intros key _. unfold candidate.
    rewrite decrypt_no_letters by assumption. cbn. eauto. }
  assert (In (0, 1) (key_space m)) as Hkey.
  { apply key_space_valid; [lia|]. unfold valid_key. rewrite Z.gcd_1_l. lia. }
  destruct (map_result_In _ _ _ _ Hcands Hkey) as (cand & _ & Hcand).
  destruct (py_max (map snd cands)) as [mx|e] eqn:Hmax;
    [|destruct cands; [contradiction | discriminate]].
  assert (find_possible_plaintext U word_bank m ciphertext =
          Ok (first_occurrences (maximal mx cands))) as Hfind.
  { rewrite find_possible_plaintext_eq. unfold distinct_maximal, candidates.
    rewrite Hcands. cbn [bind]. rewrite Hmax. reflexivity. }
  rewrite Hfind. f_equal. apply NoDup_constant.
  - apply NoDup_first_occurrences.
  - apply (find_possible_plaintext_some U word_bank m ciphertext), Hfind.
  - intros p Hp. apply In_best in Hp.
    destruct (map_result_In_inv _ _ _ _ Hcands Hp) as (key & _ & Hc).
    apply candidate_inv in Hc. destruct Hc as [Hd _].
    rewrite decrypt_no_letters in Hd by assumption. congruence.
Qed.

Lemma find_possible_plaintext_no_letters_witness :
  find_possible_plaintext ascii_only {[ py "the" ]} 26 (py "1234 !!!")
    = Ok [py "1234 !!!"].
Proof.
  apply (find_possible_plaintext_no_letters
           ascii_only {[ py "the" ]} 26 (py "1234 !!!"));
    [lia | reflexivity].
Defined.

Lemma length_fold_keep ps kept :
  (length (fold_left keep ps kept) <= length kept + length ps)%nat.
Proof.
  revert kept. induction ps as [|p ps IH]; intros kept; cbn; [lia|].
  specialize (IH (keep kept p)). unfold keep in *.
  destruct (bool_decide (p ∈ kept)); [lia|].
  rewrite length_app in IH. cbn in IH. lia.
Qed.

Lemma length_filter_le {A} (P : A -> bool) (l : list A) :
  (length (List.filter P l) <= length l)%nat.
Proof.
  induction l as [|x l IH]; cbn; [lia|]. destruct (P x); cbn; lia.
Qed.

Lemma length_key_space m :
  length (key_space m) =
    (Z.to_nat m *
     length (List.filter (fun k => has_inverse k m) (range 1 m)))%nat.
Proof.
  unfold key_space.
  replace (Z.to_nat m) with (length (range 0 m))
    by (unfold range; rewrite length_map, length_seq; f_equal; lia).
  induction (range 0 m) as [|s l IH]; cbn [flat_map length]; [reflexivity|].
  rewrite length_app, length_map, IH. lia.
Qed.

(** X13: [find_possible_plaintext] returns at most [m * (m - 1)]
    plaintexts, the number of turns of its two loops. *)
Theorem find_possible_plaintext_length (U : UnicodeData)
    (word_bank : gset str) (m : Z) (ciphertext : str) (best : list str) :
  find_possible_plaintext U word_bank m ciphertext = Ok best ->
  Z.of_nat (length best) <= m * (m - 1).
Proof.
  intros H.
  destruct (find_possible_plaintext_inv U word_bank m ciphertext best H)
    as (cands & mx & Hcands & Hmax & ->).
  pose proof (length_fold_keep (maximal mx cands) []) as H1.
  change (fold_left keep (maximal mx cands) [])
    with (first_occurrences (maximal mx cands)) in H1.
  unfold maximal in H1 at 2. rewrite length_map in H1.
  pose proof (length_filter_le (fun kv => snd kv =? mx) cands) as H2.
  rewrite (candidates_length U word_bank m ciphertext _ _ Hcands) in H2.
  rewrite length_key_space in H2.
  pose proof (length_filter_le (fun k => has_inverse k m) (range 1 m)) as H3.
  unfold range in H3 at 2. rewrite length_map, length_seq in H3.
  cbn [length] in H1.
  destruct (Z.le_gt_cases m 0) as [Hm|Hm].
  - replace (Z.to_nat m) with 0%nat in H2 by lia. nia.
  - nia.
Qed.

Lemma find_possible_plaintext_length_witness :
  Z.of_nat (length [py "a"; py "c"; py "b"]) <= 3 * (3 - 1).
Proof.
  apply (find_possible_plaintext_length ascii_only ∅ 3 (py "a")).
  reflexivity.
Defined.

(** X14: for an alphabet size in [[2, 26]] and an ASCII ciphertext,
    [find_possible_plaintext] does not raise: it returns a non-empty list,
    and every plaintext in it has the length of the ciphertext. *)
Theorem find_possible_plaintext_ascii (U : UnicodeData)
    (word_bank : gset str) (m : Z) (ciphertext : str) :
  2 <= m <= 26 -> ascii_text ciphertext ->
  exists best,
    find_possible_plaintext U word_bank m ciphertext = Ok best /\
    best <> [] /\
    forall p, In p best -> length p = length ciphertext.
Proof.
  intros Hm Hs.
  destruct (find_possible_plaintext_returns U word_bank m ciphertext Hm Hs)
    as (best & Hbest & Hne).
  exists best. split; [assumption|]. split; [assumption|].
  intros p Hp.
  destruct (find_possible_plaintext_inv U word_bank m ciphertext best Hbest)
    as (cands & mx & Hcands & _ & ->).
  apply In_best in Hp.
  destruct (map_result_In_inv _ _ _ _ Hcands Hp) as ([shift k] & Hkey & Hc).
  apply candidate_inv in Hc. cbn [fst snd] in Hc. destruct Hc as [Hd _].
  apply key_space_valid in Hkey; [|lia].
  destruct (valid_key_inverse m shift k Hkey) as (inv & Hinv & _).
  rewrite (decrypt_ascii U m shift k inv) in Hd by (auto; lia).
  injection Hd as <-. apply length_map.
Qed.

Lemma find_possible_plaintext_ascii_witness :
  exists best,
    find_possible_plaintext ascii_only {[ py "at"; py "if" ]} 26 (py "ib")
      = Ok best /\
    best <> [] /\
    forall p, In p best -> length p = length (py "ib").
Proof.
  apply (find_possible_plaintext_ascii
           ascii_only {[ py "at"; py "if" ]} 26 (py "ib"));
    [lia | reflexivity].
Defined.

(** ** [run] *)

Lemma print_each_all (pre suf out : list str) :
  print_each (pre ++ suf) (seq (length pre) (length suf)) out =
    (out ++
     concat (map (fun ip => [py "Possible plaintext " ++ decimal (fst ip)
                               ++ py ":"; snd ip])
                 (combine (seq (length pre) (length suf)) suf)),
     None).
Proof.
  revert pre out. induction suf as [|p suf IH]; intros pre out.
  - cbn. rewrite app_nil_r. reflexivity.
  - cbn [length seq print_each combine map concat fst snd].
    rewrite nth_error_app2, Nat.sub_diag by lia. cbn [nth_error].
    replace (pre ++ p :: suf) with ((pre ++ [p]) ++ suf)
      by (rewrite <- app_assoc; reflexivity).
    replace (S (length pre)) with (length (pre ++ [p]))
      by (rewrite length_app; cbn; lia).
    rewrite IH. f_equal. rewrite <- !app_assoc. reflexivity.
Qed.

(** X15: [run] never fails on an index: when [find_possible_plaintext]
    raises, [run] prints nothing and the exception goes through; otherwise
    it prints each returned plaintext as it is, under its heading, and
    ends normally. *)
Theorem run_reports (U : UnicodeData) (word_bank : gset str) (m : Z)
    (ciphertext : str) :
  run U word_bank m ciphertext =
    match find_possible_plaintext U word_bank m ciphertext with
    | Raise e => ([], Some (Propagated e))
    | Ok best => (report best, None)
    end /\
  snd (run U word_bank m ciphertext) <> Some IndexError.
Proof.
  assert (run U word_bank m ciphertext =
          match find_possible_plaintext U word_bank m ciphertext with
          | Raise e => ([], Some (Propagated e))
          | Ok best => (report best, None)
          end) as Hrun.
  { unfold run.
    destruct (find_possible_plaintext U word_bank m ciphertext)
      as [best|e] eqn:Hfind; [|reflexivity].
    apply find_possible_plaintext_some in Hfind.
    destruct best as [|p [|q best]]; [contradiction | reflexivity |].
    cbn [length Nat.ltb Nat.leb].
    apply (print_each_all [] (p :: q :: best)). }
  split; [exact Hrun|]. rewrite Hrun.
  destruct (find_possible_plaintext U word_bank m ciphertext);
    cbn; discriminate.
Qed.

(** ** More on [calculate_score] *)

Lemma calculate_score_letter_words (U : UnicodeData) (word_bank : gset str)
    (text : str) :
  calculate_score U word_bank text =
    Z.of_nat (length (List.filter (fun w => bool_decide (w ∈ word_bank))
                                  (letter_words U text))).
Proof.
  unfold calculate_score, letter_words.
  rewrite py_sum_count, findall_word_runs. reflexivity.
Qed.

Lemma length_filter_mono {A} (P Q : A -> bool) (l : list A) :
  (forall x, In x l -> P x = true -> Q x = true) ->
  (length (List.filter P l) <= length (List.filter Q l))%nat.
Proof.
  induction l as [|x l IH]; intros H; cbn; [lia|].
  assert (length (List.filter P l) <= length (List.filter Q l))%nat as IH'
    by (apply IH; intros y Hy; apply H; right; assumption).
  destruct (P x) eqn:HP.
  - rewrite (H x (or_introl eq_refl) HP). cbn. lia.
  - destruct (Q x); cbn; lia.
Qed.

(** X16: the score grows with the word bank: adding words to the bank
    never lowers the score of a plaintext. *)
Theorem calculate_score_monotone (U : UnicodeData)
    (word_bank word_bank' : gset str) (plaintext : str) :
  word_bank ⊆ word_bank' ->
  calculate_score U word_bank plaintext <=
  calculate_score U word_bank' plaintext.
Proof.
  intros Hsub. rewrite !calculate_score_letter_words.
  apply inj_le, length_filter_mono. intros w _ Hw.
  apply bool_decide_eq_true in Hw. apply bool_decide_eq_true. auto.
Qed.

Lemma calculate_score_monotone_witness :
  calculate_score ascii_only {[ py "cat" ]} (py "the cat sat") <=
  calculate_score ascii_only {[ py "cat"; py "sat" ]} (py "the cat sat").
Proof.
  apply (calculate_score_monotone ascii_only {[ py "cat" ]}
           {[ py "cat"; py "sat" ]} (py "the cat sat")).
  set_solver.
Defined.

Lemma runs_nonempty (P : Z -> bool) (cur s w : str) :
  In w (runs P cur s) -> w <> [].
Proof.
  revert cur. induction s as [|c s IH]; intros cur; cbn.
  - destruct cur; cbn; [contradiction|]. intros [<-|[]]. discriminate.
  - destruct (P c); [apply IH|]. intros H. apply in_app_or in H.
    destruct H as [H|H]; [|apply (IH [] H)].
    destruct cur; cbn in H; [contradiction|].
    destruct H as [<-|[]]. discriminate.
Qed.

Lemma letter_words_spec (U : UnicodeData) (text w : str) :
  In w (letter_words U text) -> w <> [] /\ forallb in_az w = true.
Proof.
  unfold letter_words, word_runs. intros H. apply filter_In in H.
  destruct H as [H Haz]. split; [eapply runs_nonempty, H | assumption].
Qed.

(** X17: only the non-empty words of the bank made of the letters a..z can
    count: two banks with the same such words give every plaintext the same
    score.  A bank entry with an uppercase letter, a digit, an apostrophe
    or a space never matches. *)
Theorem calculate_score_lowercase_words (U : UnicodeData)
    (word_bank word_bank' : gset str) (plaintext : str) :
  (forall w, w <> [] -> forallb in_az w = true ->
             (w ∈ word_bank <-> w ∈ word_bank')) ->
  calculate_score U word_bank plaintext =
  calculate_score U word_bank' plaintext.
Proof.
  intros H. rewrite !calculate_score_letter_words. do 2 f_equal.
  apply filter_ext_in. intros w Hw.
  apply letter_words_spec in Hw. destruct Hw as [Hne Haz].
  apply bool_decide_ext, H; assumption.
Qed.

Lemma calculate_score_lowercase_words_witness :
  calculate_score ascii_only {[ py "cat"; py "Sat"; py "the cat" ]}
    (py "the cat sat") =
  calculate_score ascii_only {[ py "cat" ]} (py "the cat sat").
Proof.
  apply (calculate_score_lowercase_words ascii_only
           {[ py "cat"; py "Sat"; py "the cat" ]} {[ py "cat" ]}
           (py "the cat sat")).
  intros w _ Haz. rewrite !elem_of_union, !elem_of_singleton.
  split; [|tauto]. intros [[H|H]|H]; [assumption| |];
    subst w; discriminate Haz.
Defined.

Lemma lower_upper_ascii (U : UnicodeData) (c : Z) :
  is_ascii c = true ->
  forallb is_ascii (upper U c) = true /\
  flat_map (lower U) (upper U c) = lower U c.
Proof.
  intros Hc. unfold upper. rewrite Hc.
  apply is_ascii_spec in Hc.
  destruct (in_az c) eqn:Haz.
  - apply in_az_spec in Haz. cbn. unfold lower.
    replace (is_ascii (c - 32)) with true by (unfold is_ascii; lia).
    replace (is_ascii c) with true by (unfold is_ascii; lia).
    replace (in_AZ (c - 32)) with true by (unfold in_AZ; lia).
    replace (in_AZ c) with false by (unfold in_AZ; lia).
    split; [reflexivity|]. cbn. f_equal. lia.
  - cbn. replace (is_ascii c) with true by (unfold is_ascii; lia).
    rewrite app_nil_r. auto.
Qed.

Lemma str_lower_upper_ascii (U : UnicodeData) (s : str) :
  ascii_text s -> str_lower U (str_upper U s) = str_lower U s.
Proof.
  intros Hs. unfold str_lower, str_upper.
  assert (forallb is_ascii (flat_map (upper U) s) = true /\
          flat_map (lower U) (flat_map (upper U) s) = flat_map (lower U) s)
    as [Ha Hl].
  { induction s as [|c s IH]; [auto|].
    apply ascii_text_cons in Hs. destruct Hs as [Hc Hs].
    destruct (IH Hs) as [IHa IHl].
    destruct (lower_upper_ascii U c Hc) as [Ha Hl].
    cbn [flat_map]. rewrite forallb_app, flat_map_app, Ha, IHa, Hl, IHl.
    auto. }
  rewrite Ha, Hs. exact Hl.
Qed.

(** X18: scoring does not see the case of ASCII text: a plaintext and its
    uppercase form have the same score. *)
Theorem calculate_score_ignores_case (U : UnicodeData)
    (word_bank : gset str) (plaintext : str) :
  ascii_text plaintext ->
  calculate_score U word_bank (str_upper U plaintext) =
  calculate_score U word_bank plaintext.
Proof.
  intros Hs. unfold calculate_score.
  rewrite str_lower_upper_ascii by assumption. reflexivity.
Qed.

Lemma calculate_score_ignores_case_witness :
  calculate_score ascii_only {[ py "cat" ]} (py "THE CAT") =
  calculate_score ascii_only {[ py "cat" ]} (py "the Cat").
Proof.
  apply (calculate_score_ignores_case ascii_only {[ py "cat" ]}
           (py "the Cat")).
  reflexivity.
Defined.

Lemma runs_app_sep (P : Z -> bool) (cur l1 l2 : str) (sep : Z) :
  P sep = false ->
  runs P cur (l1 ++ sep :: l2) = runs P cur l1 ++ runs P [] l2.
Proof.
  intros Hsep. revert cur. induction l1 as [|c l1 IH]; intros cur; cbn.
  - rewrite Hsep. reflexivity.
  - destruct (P c); [apply IH|]. rewrite IH, app_assoc. reflexivity.
Qed.

Lemma str_lower_ascii (U : UnicodeData) (s : str) :
  ascii_text s -> str_lower U s = flat_map (lower U) s.
Proof. intros Hs. unfold str_lower. rewrite Hs. reflexivity. Qed.

Lemma ascii_text_app (s1 s2 : str) :
  ascii_text (s1 ++ s2) <-> ascii_text s1 /\ ascii_text s2.
Proof. unfold ascii_text. rewrite forallb_app. apply andb_true_iff. Qed.

(** X19: the score adds up over a separator: for ASCII texts [s1] and [s2]
    and an ASCII character between them that is not a letter, a digit or
    an underscore, the score of the whole is the sum of the two scores. *)
Theorem calculate_score_additive (U : UnicodeData) (word_bank : gset str)
    (s1 s2 : str) (sep : Z) :
  ascii_text s1 -> ascii_text s2 ->
  is_ascii sep = true -> isword U sep = false ->
  calculate_score U word_bank (s1 ++ sep :: s2) =
  calculate_score U word_bank s1 + calculate_score U word_bank s2.
Proof.
  intros H1 H2 Hsep Hword. rewrite !calculate_score_letter_words.
  unfold letter_words, word_runs.
  assert (ascii_text (s1 ++ sep :: s2)) as H12.
  { apply ascii_text_app. split; [assumption|].
    apply ascii_text_cons. auto. }
  rewrite !str_lower_ascii by assumption.
  rewrite flat_map_app. cbn [flat_map].
  assert (lower U sep = [sep]) as ->.
  { unfold lower. rewrite Hsep.
    destruct (in_AZ sep) eqn:E; [|reflexivity].
    unfold isword in Hword. rewrite Hsep, E in Hword. discriminate. }
  cbn [app]. rewrite runs_app_sep by assumption.
  rewrite !List.filter_app, length_app. lia.
Qed.

Lemma calculate_score_additive_witness :
  calculate_score ascii_only {[ py "cat"; py "sat" ]} (py "the cat, sat") =
  calculate_score ascii_only {[ py "cat"; py "sat" ]} (py "the cat") +
  calculate_score ascii_only {[ py "cat"; py "sat" ]} (py " sat").
Proof.
  apply (calculate_score_additive ascii_only {[ py "cat"; py "sat" ]}
           (py "the cat") (py " sat") 44);
    reflexivity.
Defined.

Lemma length_runs (P : Z -> bool) (cur s : str) :
  (2 * length (runs P cur s) <=
   length s + match cur with [] => 1 | _ => 2 end)%nat.
Proof.
  revert cur. induction s as [|c s IH]; intros cur; cbn [runs length].
  - destruct cur; cbn; lia.
  - destruct (P c).
    + specialize (IH (cur ++ [c])).
      destruct cur; cbn in IH |- *; lia.
    + specialize (IH []). rewrite length_app.
      destruct cur; cbn in IH |- *; lia.
Qed.

Lemma length_str_lower_ascii (U : UnicodeData) (s : str) :
  ascii_text s -> length (str_lower U s) = length s.
Proof.
  intros Hs. rewrite str_lower_ascii by assumption.
  induction s as [|c s IH]; [reflexivity|].
  apply ascii_text_cons in Hs. destruct Hs as [Hc Hs].
  cbn [flat_map]. rewrite length_app, (IH Hs).
  unfold lower. rewrite Hc. destruct (in_AZ c); reflexivity.
Qed.

(** X20: words need room: on ASCII text twice the score is at most the
    length of the text plus one. *)
Theorem calculate_score_bound (U : UnicodeData) (word_bank : gset str)
    (plaintext : str) :
  ascii_text plaintext ->
  2 * calculate_score U word_bank plaintext
    <= Z.of_nat (length plaintext) + 1.
Proof.
  intros Hs. rewrite calculate_score_letter_words.
  unfold letter_words, word_runs.
  pose proof (length_filter_le (fun w => bool_decide (w ∈ word_bank))
                (List.filter (forallb in_az)
                   (runs (isword U) [] (str_lower U plaintext)))) as H1.
  pose proof (length_filter_le (forallb in_az)
                (runs (isword U) [] (str_lower U plaintext))) as H2.
  pose proof (length_runs (isword U) [] (str_lower U plaintext)) as H3.
  rewrite (length_str_lower_ascii U plaintext Hs) in H3. lia.
Qed.

Lemma calculate_score_bound_witness :
  2 * calculate_score ascii_only {[ py "a"; py "b" ]} (py "a b a")
    <= Z.of_nat (length (py "a b a")) + 1.
Proof.
  apply (calculate_score_bound ascii_only {[ py "a"; py "b" ]} (py "a b a")).
  reflexivity.
Defined.

(** ** [load_word_bank] *)

Lemma elem_of_load_word_bank (U : UnicodeData) (space : Z -> bool)
    (file : list str) (w : str) :
  w ∈ load_word_bank U space file <->
  exists line, In line file /\ w = str_lower U (strip space line).
Proof.
  unfold load_word_bank.
  assert (forall acc : gset str,
            w ∈ fold_left (fun word_set line =>
                             {[ str_lower U (strip space line) ]} ∪ word_set)
                          file acc <->
            w ∈ acc \/
            exists line, In line file /\ w = str_lower U (strip space line))
    as H.
  { induction file as [|l file IH]; intros acc; cbn [fold_left].
    - split; [auto|]. intros [?|(line & [] & _)]. assumption.
    - rewrite IH, elem_of_union, elem_of_singleton. split.
      + intros [[->|?]|(line & Hin & ->)]; eauto.
        * right. exists l. split; [left|]; reflexivity.
        * right. exists line. split; [right; assumption | reflexivity].
      + intros [?|(line & [->|Hin] & ->)]; eauto. }
  rewrite H. rewrite elem_of_empty. tauto.
Qed.

Lemma lstrip_split (space : Z -> bool) (s : str) :
  exists ws, s = ws ++ lstrip space s.
Proof.
  induction s as [|c s [ws IH]]; [exists []; reflexivity|].
  cbn. destruct (isspace space c); [|exists []; reflexivity].
  exists (c :: ws). cbn. f_equal. exact IH.
Qed.

Lemma lstrip_starts_clean (space : Z -> bool) (s : str) :
  starts_clean space (lstrip space s).
Proof.
  induction s as [|c s IH]; cbn; [exact I|].
  destruct (isspace space c) eqn:E; [exact IH | exact E].
Qed.

Lemma lstrip_clean (space : Z -> bool) (s : str) :
  starts_clean space s -> lstrip space s = s.
Proof. destruct s as [|c s]; cbn; [reflexivity|]. intros ->. reflexivity. Qed.

Lemma strip_clean (space : Z -> bool) (s : str) :
  starts_clean space (strip space s) /\
  starts_clean space (rev (strip space s)).
Proof.
  unfold strip, rstrip. set (y := lstrip space s).
  pose proof (lstrip_starts_clean space s) as Hy. fold y in Hy.
  split.
  - destruct (lstrip_split space (rev y)) as [ws Hws].
    set (z := lstrip space (rev y)) in *.
    apply (f_equal (@rev Z)) in Hws. rewrite rev_involutive, rev_app_distr in Hws.
    destruct (rev z) as [|c t]; [exact I|].
    rewrite Hws in Hy. exact Hy.
  - rewrite rev_involutive. apply lstrip_starts_clean.
Qed.

Lemma ascii_text_In (s : str) :
  ascii_text s <-> forall c, In c s -> is_ascii c = true.
Proof. unfold ascii_text. apply forallb_forall. Qed.

Lemma In_lstrip (space : Z -> bool) (s : str) (c : Z) :
  In c (lstrip space s) -> In c s.
Proof.
  destruct (lstrip_split space s) as [ws Hws]. intros H.
  rewrite Hws. apply in_or_app. right. assumption.
Qed.

Lemma In_strip (space : Z -> bool) (s : str) (c : Z) :
  In c (strip space s) -> In c s.
Proof.
  unfold strip, rstrip. intros H. apply in_rev, In_lstrip, in_rev in H.
  apply In_lstrip in H. exact H.
Qed.

Lemma ascii_text_strip (space : Z -> bool) (s : str) :
  ascii_text s -> ascii_text (strip space s).
Proof.
  rewrite !ascii_text_In. intros H c Hc. apply H, (In_strip space), Hc.
Qed.

Lemma str_lower_map (U : UnicodeData) (s : str) :
  ascii_text s -> str_lower U s = map ascii_lower s.
Proof.
  intros Hs. rewrite str_lower_ascii by assumption.
  induction s as [|c s IH]; [reflexivity|].
  apply ascii_text_cons in Hs. destruct Hs as [Hc Hs].
  cbn [flat_map map]. rewrite (IH Hs).
  unfold lower, ascii_lower. rewrite Hc. destruct (in_AZ c); reflexivity.
Qed.

Lemma isspace_ascii_lower (space : Z -> bool) (c : Z) :
  is_ascii c = true ->
  isspace space (ascii_lower c) = isspace space c.
Proof.
  intros Hc. unfold ascii_lower. destruct (in_AZ c) eqn:E; [|reflexivity].
  apply in_AZ_spec in E. unfold isspace.
  replace (is_ascii (c + 32)) with true by (unfold is_ascii; lia).
  rewrite Hc. lia.
Qed.

Lemma starts_clean_lower (space : Z -> bool) (s : str) :
  ascii_text s -> starts_clean space s ->
  starts_clean space (map ascii_lower s).
Proof.
  destruct s as [|c s]; [auto|]. intros Hs. cbn.
  apply ascii_text_cons in Hs. destruct Hs as [Hc _].
  rewrite isspace_ascii_lower by assumption. auto.
Qed.

Lemma ascii_text_rev (s : str) : ascii_text s -> ascii_text (rev s).
Proof.
  rewrite !ascii_text_In. intros H c Hc. apply H, in_rev, Hc.
Qed.

(** X21: the words that [load_word_bank] puts in the bank from ASCII lines
    are normalised: they have no uppercase letter and no white space at
    either end, so stripping them again changes nothing. *)
Theorem load_word_bank_normalised (U : UnicodeData) (space : Z -> bool)
    (file : list str) (w : str) :
  (forall line, In line file -> ascii_text line) ->
  w ∈ load_word_bank U space file ->
  forallb (fun c => negb (in_AZ c)) w = true /\
  strip space w = w.
Proof.
  intros Hfile Hw. apply elem_of_load_word_bank in Hw.
  destruct Hw as (line & Hline & ->).
  pose proof (ascii_text_strip space line (Hfile line Hline)) as Ht.
  destruct (strip_clean space line) as [Hhead Hlast].
  set (t := strip space line) in *.
  rewrite (str_lower_map U t Ht). split.
  - apply forallb_forall. intros d Hd. apply in_map_iff in Hd.
    destruct Hd as (c & <- & _). unfold ascii_lower.
    destruct (in_AZ c) eqn:E; [|rewrite E; reflexivity].
    apply in_AZ_spec in E.
    replace (in_AZ (c + 32)) with false by (unfold in_AZ; lia). reflexivity.
  - unfold strip, rstrip.
    rewrite (lstrip_clean space (map ascii_lower t))
      by (apply starts_clean_lower; assumption).
    rewrite <- map_rev.
    rewrite (lstrip_clean space (map ascii_lower (rev t)))
      by (apply starts_clean_lower; [apply ascii_text_rev|]; assumption).
    rewrite map_rev. apply rev_involutive.
Qed.

Lemma load_word_bank_normalised_witness :
  forallb (fun c => negb (in_AZ c)) (py "cat") = true /\
  strip (fun _ => false) (py "cat") = py "cat".
Proof.
  apply (load_word_bank_normalised ascii_only (fun _ => false)
           [py "dog "; py "  Cat  "] (py "cat")).
  - intros line [<-|[<-|[]]]; reflexivity.
  - apply elem_of_load_word_bank. exists (py "  Cat  ").
    split; [right; left; reflexivity | reflexivity].
Defined.

Lemma forallb_in_az_lower (s : str) :
  forallb is_letter s = true -> forallb in_az (map ascii_lower s) = true.
Proof.
  induction s as [|c s IH]; [reflexivity|]. cbn.
  intros H. apply andb_true_iff in H. destruct H as [Hc Hs].
  rewrite (IH Hs), andb_true_r.
  unfold is_letter in Hc. apply orb_true_iff in Hc.
  rewrite in_AZ_spec, in_az_spec in Hc. unfold ascii_lower.
  destruct (in_AZ c) eqn:E.
  - apply in_AZ_spec in E. unfold in_az. lia.
  - assert (~ 65 <= c <= 90) by (rewrite <- in_AZ_spec; congruence).
    unfold in_az. lia.
Qed.

(** X22: a word listed in the file counts: if an ASCII line of the file,
    stripped, is a non-empty word of letters (of either case), that word on
    its own scores 1 against the bank that [load_word_bank] builds. *)
Theorem load_word_bank_scores (U : UnicodeData) (space : Z -> bool)
    (file : list str) (line : str) :
  In line file -> ascii_text line ->
  strip space line <> [] ->
  forallb is_letter (strip space line) = true ->
  calculate_score U (load_word_bank U space file) (strip space line) = 1.
Proof.
  intros Hline Hascii Hne Hletters.
  rewrite calculate_score_letter_words. unfold letter_words, word_runs.
  assert (str_lower U (strip space line)
            ∈ load_word_bank U space file) as Hbank
    by (apply elem_of_load_word_bank; eauto).
  pose proof (ascii_text_strip space line Hascii) as Ht.
  set (t := strip space line) in *.
  rewrite (str_lower_map U t Ht) in *.
  pose proof (forallb_in_az_lower t Hletters) as Haz.
  set (lw := map ascii_lower t) in *.
  assert (lw <> []) as Hlw by (subst lw; destruct t; [contradiction|discriminate]).
  assert (forallb (isword U) lw = true) as Hword.
  { apply forallb_forall. intros c Hc. apply in_az_isword.
    rewrite forallb_forall in Haz. auto. }
  pose proof (runs_run (isword U) [] lw [] Hword I) as Hruns.
  rewrite app_nil_r in Hruns. rewrite Hruns. cbn [app tail runs emit].
  destruct lw as [|c lw']; [contradiction|].
  cbn [emit app List.filter]. rewrite Haz. cbn [List.filter].
  rewrite bool_decide_eq_true_2 by assumption. reflexivity.
Qed.

Lemma load_word_bank_scores_witness :
  calculate_score ascii_only
    (load_word_bank ascii_only (fun _ => false) [py "dog "; py "  Cat  "])
    (py "Cat") = 1.
Proof.
  apply (load_word_bank_scores ascii_only (fun _ => false)
           [py "dog "; py "  Cat  "] (py "  Cat  "));
    try reflexivity; [right; left; reflexivity | discriminate].
Defined.

(** ** The identity key *)

Lemma modular_inverse_one m : 2 <= m -> modular_inverse 1 m = Ok (Some 1).
Proof.
  intros Hm.
  destruct (modular_inverse_coprime 1 m) as (x & -> & Hx & Hone);
    [lia | lia | apply Z.gcd_1_l |].
  rewrite Z.mul_1_l, Z.mod_small, Z.mod_1_l in Hone by lia.
  subst x. reflexivity.
Qed.

Lemma plain_char_identity m c :
  1 <= m -> is_ascii c = true ->
  (is_letter c = true -> letter_index c < m) ->
  plain_char m 0 1 c = c.
Proof.
  intros Hm Hc Hidx. unfold plain_char.
  destruct (is_letter c) eqn:Hl; [|reflexivity].
  pose proof (letter_index_range c Hl) as Hrange. specialize (Hidx eq_refl).
  rewrite Z.sub_0_r, Z.mul_1_r, Z.mod_small by lia.
  unfold letter_index, ord_a. destruct (in_AZ c); lia.
Qed.

(** X23: the key (0, 1) changes nothing: for an alphabet size in [[2, 26]]
    and an ASCII text whose letters are among the first [m] letters,
    [decrypt] with shift 0 and multiplier 1 returns the text itself. *)
Theorem decrypt_identity_key U m s :
  2 <= m <= 26 -> in_alphabet m s -> decrypt U m s 0 1 = Ok s.
Proof.
  intros Hm Hs.
  rewrite (decrypt_ascii U m 0 1 1);
    [|apply modular_inverse_one; lia | lia
     |apply (in_alphabet_ascii m); assumption].
  f_equal. rewrite <- (map_id s) at 2. apply map_ext_in. intros c Hc.
  destruct (proj1 (in_alphabet_forall m s) Hs c Hc) as [Ha Hidx].
  apply plain_char_identity; [lia | assumption | assumption].
Qed.

Lemma decrypt_identity_key_witness :
  decrypt ascii_only 5 (py "A bad cab, 42!") 0 1 = Ok (py "A bad cab, 42!").
Proof.
  apply (decrypt_identity_key ascii_only 5 (py "A bad cab, 42!"));
    [lia | reflexivity].
Defined.

(** ** When the empty key space is found *)

Lemma snd_traced_bind {A B} (t : list event * result A)
    (k : A -> list event * result B) :
  snd (traced_bind t k) = bind (snd t) (fun a => snd (k a)).
Proof.
  destruct t as [tr [a|e]]; cbn; [|reflexivity].
  destruct (k a). reflexivity.
Qed.

Lemma snd_for_each_traced {A S} (l : list A)
    (body : A -> S -> list event * result S) (s : S) :
  snd (for_each_traced l body s) = for_each l (fun x s => snd (body x s)) s.
Proof.
  revert s. induction l as [|x l IH]; intros s; cbn; [reflexivity|].
  rewrite snd_traced_bind.
  destruct (snd (body x s)); cbn [bind]; [apply IH | reflexivity].
Qed.

(** The record changes nothing to the result. *)
Lemma find_possible_plaintext_traced_result (U : UnicodeData)
    (word_bank : gset str) (m : Z) (ciphertext : str) :
  snd (find_possible_plaintext_traced U word_bank m ciphertext) =
    find_possible_plaintext U word_bank m ciphertext.
Proof.
  unfold find_possible_plaintext_traced, find_possible_plaintext.
  rewrite snd_traced_bind, snd_for_each_traced.
  rewrite (for_each_ext (range 0 m) _
             (fun shift d =>
                for_each (range 1 m) (try_key U word_bank m ciphertext shift)
                         d)).
  - destruct (for_each (range 0 m) _ []) as [d|e]; cbn [bind];
      [|reflexivity].
    rewrite snd_traced_bind. cbn [snd].
    destruct (py_max (dict_values d)); reflexivity.
  - intros shift d _. rewrite snd_traced_bind. cbn [snd bind].
    rewrite snd_for_each_traced. reflexivity.
Qed.

Lemma shift_turns_only (l : list Z)
    (body : Z -> Z -> list (str * Z) -> list event * result (list (str * Z)))
    (d : list (str * Z)) :
  for_each_traced l
    (fun shift d =>
       traced_bind ([ShiftTurn shift], Ok d)
                   (for_each_traced [] (body shift)))
    d =
  (map ShiftTurn l, Ok d).
Proof.
  set (turn := fun shift d => traced_bind _ _).
  induction l as [|shift l IH]; [reflexivity|].
  change (for_each_traced (shift :: l) turn d)
    with (traced_bind (turn shift d) (for_each_traced l turn)).
  replace (turn shift d) with ([ShiftTurn shift], @Ok (list (str * Z)) d)
    by reflexivity.
  unfold traced_bind. rewrite IH. reflexivity.
Qed.

Lemma degenerate_trace (U : UnicodeData) (word_bank : gset str) (m : Z)
    (ciphertext : str) :
  m <= 1 ->
  find_possible_plaintext_traced U word_bank m ciphertext =
    (map ShiftTurn (range 0 m) ++ [MaxCall], Raise ValueError_max).
Proof.
  intros Hm. unfold find_possible_plaintext_traced.
  replace (range 1 m) with (@nil Z)
    by (unfold range; replace (Z.to_nat (m - 1)) with 0%nat by lia;
        reflexivity).
  rewrite (shift_turns_only (range 0 m)
             (fun shift multiplier d =>
                ([KeyTurn shift multiplier],
                 try_key U word_bank m ciphertext shift multiplier d))).
  reflexivity.
Qed.

(** C7, as amended: when the alphabet size is at most 1 the key space is
    empty and [find_possible_plaintext] fails with the [ValueError] that
    [max] raises on the empty collection of candidates.  Nothing checks the
    alphabet size before the enumeration: the failure comes at the call of
    [max], after the loop over the shifts has run (one turn for the size 1,
    none below) without a single turn of the loop over the multipliers.  For
    an alphabet size of at least 2 the key (0, 1) is valid and this failure
    does not occur.  The record of the turns leaves the result as it is. *)
Theorem empty_key_space (U : UnicodeData) (word_bank : gset str) (m : Z)
    (ciphertext : str) :
  snd (find_possible_plaintext_traced U word_bank m ciphertext) =
    find_possible_plaintext U word_bank m ciphertext /\
  (m <= 1 ->
   key_space m = [] /\
   find_possible_plaintext_traced U word_bank m ciphertext =
     (map ShiftTurn (range 0 m) ++ [MaxCall], Raise ValueError_max) /\
   find_possible_plaintext U word_bank m ciphertext = Raise ValueError_max) /\
  (2 <= m ->
   valid_key m 0 1 /\ In (0, 1) (key_space m) /\
   find_possible_plaintext U word_bank m ciphertext <> Raise ValueError_max).
Proof.
  destruct (empty_key_space_result U word_bank m ciphertext) as [Hlow Hhigh].
  split; [apply find_possible_plaintext_traced_result|].
  split; [|exact Hhigh].
  intros Hm. destruct (Hlow Hm) as [Hkeys Hraise].
  split; [exact Hkeys|]. split; [|exact Hraise].
  apply degenerate_trace, Hm.
Qed.

Lemma empty_key_space_witness :
  (key_space 1 = [] /\
   find_possible_plaintext_traced ascii_only ∅ 1 (py "abc") =
     ([ShiftTurn 0; MaxCall], Raise ValueError_max) /\
   find_possible_plaintext ascii_only ∅ 1 (py "abc") = Raise ValueError_max) /\
  (valid_key 26 0 1 /\ In (0, 1) (key_space 26) /\
   find_possible_plaintext ascii_only ∅ 26 (py "abc") <> Raise ValueError_max).
Proof.
  split.
  - destruct (empty_key_space ascii_only ∅ 1 (py "abc")) as (_ & Hlow & _).
    apply Hlow. lia.
  - destruct (empty_key_space ascii_only ∅ 26 (py "abc")) as (_ & _ & Hhigh).
    apply Hhigh. lia.
Defined.

(** C7 as stated fails: with the alphabet size 1 the key space is empty, and
    the failure is not found before the enumeration begins: the loop over
    the shifts takes its turn for the shift 0 first, and the exception is
    the one of the call of [max] that follows the loops. *)
Lemma empty_key_space_found_by_max :
  key_space 1 = [] /\
  forall U word_bank ciphertext,
    find_possible_plaintext_traced U word_bank 1 ciphertext =
      ([ShiftTurn 0; MaxCall], Raise ValueError_max).
Proof. split; [reflexivity | intros; reflexivity]. Qed.

(** ** Exactly when the key is determined *)















